(** * rtslam: the abstract sensor (sensorAbstract.hpp / sensorAbstract.cpp)

    A shallow embedding of [jafar::rtslam::SensorAbstract]: its constructors,
    the diagnostic dump, the [processRaw] cycle (known landmarks, then
    discovery of one new landmark) and the composition of the sensor pose
    with the pose of its robot.

    Objects handed around through [boost::shared_ptr] live in stores, one
    per class, and a pointer is an index into its store.  Code that runs
    against the stores is written in a small state-and-error monad. *)

From stdpp Require Import base list strings.
From Stdlib Require Import Lia ZArith.

Set Default Proof Using "Type".

(** ** Index arrays (jmath/indirectArray.hpp) *)

Abbreviation ind_array := (list nat).

(** Modelled from the spec: [ia_range] lives in jmath/indirectArray.hpp.
    §4.1: "range(start, length) → new ordered index set
    {start, start+1, …, start+length-1}". *)
Definition ia_range (start len : nat) : ind_array := seq start len.

(** Insertion of one index into an ascending, duplicate-free array. *)
Fixpoint ia_insert (i : nat) (a : ind_array) : ind_array :=
  match a with
  | [] => [i]
  | j :: t =>
      if i <? j then i :: a
      else if i =? j then a
      else j :: ia_insert i t
  end.

(** Modelled from the spec: [ia_union] lives in jmath/indirectArray.hpp.
    §4.1: "union(a, b) → merge of two index sets, ascending, duplicates
    removed". *)
Definition ia_union (a b : ind_array) : ind_array :=
  foldr ia_insert [] (a ++ b).

(** Modelled from the spec: the indirection of an index array through
    another one, used when a Gaussian is built as a view of a view (§3: a
    REMOTE quantity reads "through an IndexSet view into the shared
    arena").  Positions outside the outer array are dropped. *)
Definition ia_compose (outer inner : ind_array) : ind_array :=
  omap (λ k, outer !! k) inner.

(** ** [std::map<size_t, T>]: keys kept in ascending order *)

Module StdMap.

Abbreviation t V := (list (nat * V)).

Definition empty {V} : t V := [].

(** [m[k] = v] *)
Fixpoint assign {V} (k : nat) (v : V) (m : t V) : t V :=
  match m with
  | [] => [(k, v)]
  | (k', v') :: rest =>
      if k <? k' then (k, v) :: m
      else if k =? k' then (k, v) :: rest
      else (k', v') :: assign k v rest
  end.

Fixpoint find {V} (k : nat) (m : t V) : option V :=
  match m with
  | [] => None
  | (k', v') :: rest => if k =? k' then Some v' else find k rest
  end.

Definition keys {V} (m : t V) : list nat := m.*1.

(** The red-black tree of the C++ container keeps its keys strictly
    ascending; so does the list. *)
Fixpoint ascending (l : list nat) : Prop :=
  match l with
  | [] => True
  | k :: rest => Forall (λ k', k < k') rest ∧ ascending rest
  end.

End StdMap.

(** ** Errors raised by the embedded code *)

Inductive error :=
  | NullPointer      (* dereference of an empty or dangling shared_ptr *)
  | BadSize          (* ublas bad_size: a vector too long for a vec7 *)
  | BadIndex         (* ublas bad_index: access outside a vector or matrix *)
  | ArenaExhausted.  (* no room left in the map for a reservation *)

Inductive storage_t := LOCAL | REMOTE.

Global Instance storage_t_eq_dec : EqDecision storage_t.
Proof. solve_decision. Defined.

(** ** Scalars and the frame-composition collaborator *)

(** The scalar type of jblas ([double] in the C++).  Nothing here computes
    with scalars; [zero] fills a freshly made local Gaussian.  [local_ia n]
    is the index array that a local Gaussian of size [n] carries: class
    Gaussian is missing from the sources and the spec does not fix it, so
    it is left open. *)
Class Jblas := {
  scalar : Type;
  zero : scalar;
  local_ia : nat → ind_array
}.

Abbreviation vec := (list scalar).

(** A ublas matrix as its list of rows. *)
Abbreviation mat := (list (list scalar)).

(** A [shared_ptr] that is not empty: the index of the object in its store. *)
Abbreviation ptr := nat.

Section Rtslam.

Context `{JB : Jblas}.

Definition size1 (m : mat) : nat := length m.
Definition size2 (m : mat) : nat :=
  match m with
  | [] => 0
  | r :: _ => length r
  end.

Definition rectangular (m : mat) (r c : nat) : Prop :=
  length m = r ∧ Forall (λ row, length row = c) m.

Definition mat_at (m : mat) (i j : nat) : option scalar :=
  m !! i ≫= λ row, row !! j.

(** Modelled from the spec: quaternion::composeFrames and its Jacobians
    live in rtslam/quatTools.hpp.  §4.4: "a fixed, deterministic
    frame-composition function ... treated as an external, pure math
    primitive"; §6: "composeFrames(basePose7, offsetPose7) -> globalPose7"
    and "composeFrames(basePose7, offsetPose7, &globalPose7,
    &jacobianWrtBase7x7, &jacobianWrtOffset7x7)".  The primitive is one
    function with its two 7x7 Jacobians. *)
Class QuatTools := {
  frame_compose : vec → vec → vec;
  jacobianWrtBase : vec → vec → mat;
  jacobianWrtOffset : vec → vec → mat;
  jacobianWrtBase_7x7 : ∀ b o, rectangular (jacobianWrtBase b o) 7 7;
  jacobianWrtOffset_7x7 : ∀ b o, rectangular (jacobianWrtOffset b o) 7 7
}.

Context `{QT : QuatTools}.

(** Size of the landmark parametrization,
    [LandmarkAnchoredHomogeneousPoint::size()]. *)
Variable size_lmkAHP : nat.

(** ** Gaussian (rtslam/gaussian.hpp) *)

(** Modelled from the spec: class Gaussian is missing from the sources.
    §3: a quantity is LOCAL, "owns its own mean vector", or REMOTE,
    "owns no storage; mean and covariance are read through an IndexSet view
    into the shared arena's mean vector".  [g_arena] is the map whose mean
    a REMOTE Gaussian views.  No operation of the sensor reads a
    covariance, so only the mean is kept. *)
Record Gaussian := mkGaussian {
  storage_ : storage_t;
  x_local : vec;
  ia_ : ind_array;
  g_arena : option ptr
}.

(** Modelled from the spec: [Gaussian(size)] of the missing gaussian.hpp,
    §4.2 "Construct LOCAL from a bare mean": a local Gaussian, cleared. *)
Definition Gaussian_size (n : nat) : Gaussian :=
  mkGaussian LOCAL (replicate n zero) (local_ia n) None.

(** Modelled from the spec: [Gaussian(const vec & x)] of the missing
    gaussian.hpp, §4.2 "Construct LOCAL from a bare mean". *)
Definition Gaussian_mean (v : vec) : Gaussian :=
  mkGaussian LOCAL v (local_ia (length v)) None.

(** Modelled from the spec: [Gaussian(Gaussian & G, const ind_array & ia)]
    of the missing gaussian.hpp, §4.2 "Construct REMOTE given a shared arena
    handle and an IndexSet": a view into [G].  On a REMOTE [G] the view goes
    to the same arena through both index arrays. *)
Definition Gaussian_view (G : Gaussian) (ia : ind_array) : Gaussian :=
  match storage_ G with
  | REMOTE => mkGaussian REMOTE [] (ia_compose (ia_ G) ia) (g_arena G)
  | LOCAL => mkGaussian LOCAL (omap (λ k, x_local G !! k) ia)
               (ia_compose (ia_ G) ia) None
  end.

(** Modelled from the spec: [Gaussian::size()], the dimensionality of §3. *)
Definition g_size (g : Gaussian) : nat :=
  match storage_ g with
  | LOCAL => length (x_local g)
  | REMOTE => length (ia_ g)
  end.

(** ** Objects of the map *)

(** Modelled from the spec: jafar's IdFactory.  §4.5: "assign it the next
    id from the map's landmark id pool"; §4.3: "a monotonically-assigned
    identifier". *)
Record IdFactory := mkIdFactory { lastId : nat }.

(** Modelled from the spec: [IdFactory::getId()], "the next id" of §4.5. *)
Definition getId (f : IdFactory) : nat * IdFactory :=
  (S (lastId f), mkIdFactory (S (lastId f))).

(** Modelled from the spec: class MapObject of the missing mapObject.hpp.
    §3: "an object identifier ..., a human-readable name (optional), a
    category tag, and — if it reserves arena space — the size of that
    reservation"; [type_] is what [type()] returns in [operator<<]. *)
Record MapObject := mkMapObject {
  id_ : nat;
  name_ : string;
  categoryName_ : string;
  type_ : string;
  state : Gaussian
}.

(** Modelled from the spec: class MapAbstract of the missing
    mapAbstract.hpp, the members the sensor reaches.  Glossary: "the single
    mean vector + covariance matrix holding every in-filter entity's
    estimate"; §9: "an explicit free-list/offset allocator over a single
    contiguous buffer"; §4.5: the landmark id pool and the id→landmark
    table. *)
Record MapAbstract := mkMapAbstract {
  map_x : vec;
  used_states : list bool;
  landmarkIds : IdFactory;
  map_landmarks : StdMap.t ptr
}.

(** Modelled from the spec: class RobotAbstract of the missing
    robotAbstract.hpp, the members the sensor reaches: its identity, its
    pose and the map that owns it (§5). *)
Record RobotAbstract := mkRobotAbstract {
  rob_obj : MapObject;
  rob_pose : Gaussian;
  slamMap : option ptr
}.

(** class SensorAbstract: public MapObject *)
Record SensorAbstract := mkSensorAbstract {
  sen_obj : MapObject;
  robot : option ptr;
  observations : StdMap.t ptr;
  pose : Gaussian;
  ia_globalPose : ind_array
}.

(** Modelled from the spec: the landmark of §3, "identified by a unique id
    drawn from a per-map id pool", with its link to the map. *)
Record LandmarkAbstract := mkLandmarkAbstract {
  lmk_obj : MapObject;
  lmk_slamMap : option ptr
}.

(** Modelled from the spec: the observation of §3, "a per-(sensor,
    landmark) tracking record", with the identifier that [id()] returns. *)
Record ObservationAbstract := mkObservationAbstract {
  obs_id : nat;
  obs_sensor : option ptr;
  obs_landmark : option ptr
}.

(** What is sent to a [std::ostream], one item per [<<]. *)
Inductive item :=
  | Str (s : string)
  | Num (n : nat)
  | ItGaussian (g : Gaussian)
  | ItIndArray (a : ind_array)
  | Endl.

Record World := mkWorld {
  maps : list MapAbstract;
  robots : list RobotAbstract;
  sensors : list SensorAbstract;
  landmarks : list LandmarkAbstract;
  obs_store : list ObservationAbstract;
  cout : list item
}.

(** ** The state-and-error monad of code that runs against the stores *)

Inductive outcome (A : Type) :=
  | Done (a : A) (w : World)
  | Raise (e : error).
Global Arguments Done {A} a w.
Global Arguments Raise {A} e.

Definition M (A : Type) := World → outcome A.

Definition ret {A} (a : A) : M A := λ w, Done a w.

Definition bind {A B} (c : M A) (k : A → M B) : M B :=
  λ w, match c w with
       | Done a w' => k a w'
       | Raise e => Raise e
       end.

Definition raise {A} (e : error) : M A := λ _, Raise e.

Notation "'let*' x ':=' c 'in' k" := (bind c (λ x, k))
  (at level 10, x pattern, c at level 100, k at level 200).
Notation "c1 ';;;' c2" := (bind c1 (λ _, c2))
  (at level 100, c2 at level 200, right associativity).

(** [*p] and [p->] on a [shared_ptr] that may be empty. *)
Definition deref {A} (p : option A) : M A :=
  match p with
  | Some a => ret a
  | None => raise NullPointer
  end.

Definition liftE {A} (e : error) (o : option A) : M A :=
  match o with
  | Some a => ret a
  | None => raise e
  end.

Definition get_map (p : ptr) : M MapAbstract := λ w, deref (maps w !! p) w.
Definition get_robot (p : ptr) : M RobotAbstract := λ w, deref (robots w !! p) w.
Definition get_sensor (p : ptr) : M SensorAbstract := λ w, deref (sensors w !! p) w.
Definition get_landmark (p : ptr) : M LandmarkAbstract :=
  λ w, deref (landmarks w !! p) w.
Definition get_observation (p : ptr) : M ObservationAbstract :=
  λ w, deref (obs_store w !! p) w.

Definition set_maps (f : list MapAbstract → list MapAbstract) (w : World) : World :=
  mkWorld (f (maps w)) (robots w) (sensors w) (landmarks w) (obs_store w) (cout w).
Definition set_sensors (f : list SensorAbstract → list SensorAbstract)
    (w : World) : World :=
  mkWorld (maps w) (robots w) (f (sensors w)) (landmarks w) (obs_store w) (cout w).
Definition set_landmarks (f : list LandmarkAbstract → list LandmarkAbstract)
    (w : World) : World :=
  mkWorld (maps w) (robots w) (sensors w) (f (landmarks w)) (obs_store w) (cout w).
Definition set_obs_store (f : list ObservationAbstract → list ObservationAbstract)
    (w : World) : World :=
  mkWorld (maps w) (robots w) (sensors w) (landmarks w) (f (obs_store w)) (cout w).
Definition set_cout (f : list item → list item) (w : World) : World :=
  mkWorld (maps w) (robots w) (sensors w) (landmarks w) (obs_store w) (f (cout w)).

Definition put_map (p : ptr) (m : MapAbstract) : M unit :=
  λ w, Done () (set_maps <[p := m]> w).
Definition put_sensor (p : ptr) (s : SensorAbstract) : M unit :=
  λ w, Done () (set_sensors <[p := s]> w).
Definition put_landmark (p : ptr) (l : LandmarkAbstract) : M unit :=
  λ w, Done () (set_landmarks <[p := l]> w).

(** [new T(...)]: the object goes to the end of its store. *)
Definition new_landmark (l : LandmarkAbstract) : M ptr :=
  λ w, Done (length (landmarks w)) (set_landmarks (λ s, s ++ [l]) w).
Definition new_observation (o : ObservationAbstract) : M ptr :=
  λ w, Done (length (obs_store w)) (set_obs_store (λ s, s ++ [o]) w).

(** [cout << a << b << ...] *)
Definition print (l : list item) : M unit :=
  λ w, Done () (set_cout (λ s, s ++ l) w).

(** ** The arena of the map *)

(** Modelled from the spec: the free-cell search behind [unusedStates] and
    the reservation (§4.3, "n contiguous free state cells").  Are the first
    [n] cells of [l] all free? *)
Fixpoint free_prefix (n : nat) (l : list bool) : bool :=
  match n with
  | 0 => true
  | S k =>
      match l with
      | false :: t => free_prefix k t
      | _ => false
      end
  end.

(** Modelled from the spec: first offset, counted from [off], at which
    [n] free cells in a row start (§4.3). *)
Fixpoint find_free (n : nat) (l : list bool) (off : nat) : option nat :=
  if free_prefix n l then Some off
  else match l with
       | [] => None
       | _ :: t => find_free n t (S off)
       end.

(** Modelled from the spec: MapAbstract::unusedStates is missing from the
    sources.  §4.5: "query the owning Map's arena for whether
    size_of(landmark_type) contiguous free cells exist
    (unusedStates(n) : bool)". *)
Definition unusedStates (m : MapAbstract) (n : nat) : bool :=
  bool_decide (is_Some (find_free n (used_states m) 0)).

(** Modelled from the spec: the cells [start .. start+n-1] leave the free
    pool (§4.3). *)
Definition mark_used (start n : nat) (l : list bool) : list bool :=
  take start l ++ replicate n true ++ drop (start + n) l.

(** Modelled from the spec: the reservation of the arena is missing from
    the sources.  §4.3: "requests n contiguous free state cells; fails
    with ArenaExhaustedError if none available"; §6:
    "reserve(n) -> SliceHandle | ArenaExhaustedError". *)
Definition reserveStates (mp : ptr) (n : nat) : M ind_array :=
  let* m := get_map mp in
  match find_free n (used_states m) 0 with
  | Some start =>
      put_map mp (mkMapAbstract (map_x m) (mark_used start n (used_states m))
                    (landmarkIds m) (map_landmarks m)) ;;;
      ret (ia_range start n)
  | None => raise ArenaExhausted
  end.

(** ** MapObject *)

(** Modelled from the spec: the constructors of MapObject are missing from
    the sources.  §4.3: "Construction with reserve = 0 → not part of the
    shared arena (purely local entity)".  Identifier and names start
    empty. *)
Definition MapObject_local (n : nat) : MapObject :=
  mkMapObject 0 "" "" "" (Gaussian_size n).

(** Modelled from the spec: §4.3: "Construction with reserve = n > 0
    against a given arena → requests n contiguous free state cells"; the
    state of the object is the REMOTE view of the reserved slice. *)
Definition MapObject_map (mp : ptr) (n : nat) : M MapObject :=
  let* ia := reserveStates mp n in
  ret (mkMapObject 0 "" "" "" (mkGaussian REMOTE [] ia (Some mp))).

Definition set_categoryName (c : string) (o : MapObject) : MapObject :=
  mkMapObject (id_ o) (name_ o) c (type_ o) (state o).
Definition set_id (i : nat) (o : MapObject) : MapObject :=
  mkMapObject i (name_ o) (categoryName_ o) (type_ o) (state o).
Definition set_name (n : string) (o : MapObject) : MapObject :=
  mkMapObject (id_ o) n (categoryName_ o) (type_ o) (state o).

(** [ind_array(n)]: an index array of [n] cells.  ublas leaves the cells as
    allocated; the constructors embedded here only ask for [n = 0]. *)
Definition ind_array_sized (n : nat) : ind_array := replicate n 0.

(** ** Constructors of SensorAbstract *)

(** [SensorAbstract()] *)
Definition SensorAbstract_empty : SensorAbstract :=
  mkSensorAbstract (set_categoryName "SENSOR" (MapObject_local 0))
    None StdMap.empty (Gaussian_size 7) (ind_array_sized 0).

(** [SensorAbstract(const jblas::vec7 & _pose)] *)
Definition SensorAbstract_vec7 (_pose : vec) : SensorAbstract :=
  mkSensorAbstract (set_categoryName "SENSOR" (MapObject_local 0))
    None StdMap.empty (Gaussian_mean _pose) (ind_array_sized 0).

(** [SensorAbstract(const Gaussian & _pose)] *)
Definition SensorAbstract_Gaussian (_pose : Gaussian) : SensorAbstract :=
  mkSensorAbstract (set_categoryName "SENSOR" (MapObject_local 0))
    None StdMap.empty _pose (ind_array_sized 0).

(** [SensorAbstract(RobotAbstract & _rob, bool inFilter)].  Members are
    initialised in the order of their declaration: the MapObject base, then
    [pose], then [ia_globalPose], which reads [pose.ia()]. *)
Definition SensorAbstract_rob (_rob : RobotAbstract) (inFilter : bool)
    : M SensorAbstract :=
  let* base :=
    (if inFilter
     then (let* mp := deref (slamMap _rob) in MapObject_map mp 7)
     else ret (MapObject_local 0)) in
  let pose0 :=
    if inFilter then Gaussian_view (state base) (ia_range 0 7)
    else Gaussian_size 7 in
  let ia :=
    if inFilter then ia_union (ia_ (rob_pose _rob)) (ia_ pose0)
    else ia_ pose0 in
  ret (mkSensorAbstract (set_categoryName "SENSOR" base)
         None StdMap.empty pose0 ia).

(** ** operator<< *)

(** [std::ostream& operator<<(std::ostream & s, SensorAbstract & sen)].
    The stream is the list of items sent so far; [sen.robot->id()] needs the
    store of robots. *)
Definition print_sensor (w : World) (s : list item) (sen : SensorAbstract)
    : option (list item) :=
  let s := s ++ [Str (categoryName_ (sen_obj sen)); Str " ";
                 Num (id_ (sen_obj sen)); Str ": "] in
  let s := if 0 <? String.length (name_ (sen_obj sen))
           then s ++ [Str (name_ (sen_obj sen)); Str ", "] else s in
  let s := s ++ [Str "of type "; Str (type_ (sen_obj sen)); Endl] in
  let s := s ++ [Str ".pose :  "; ItGaussian (pose sen); Endl] in
  rp ← robot sen;
  rob ← robots w !! rp;
  let s := s ++ [Str ".robot: [ "; Num (id_ (rob_obj rob)); Str " ]"] in
  let s := if decide (storage_ (pose sen) = REMOTE)
           then s ++ [Endl; Str " ia_rs: "; ItIndArray (ia_globalPose sen)]
           else s in
  Some s.

(** ** Links *)

(** [void SensorAbstract::linkToObservation(observation_ptr_t _obsPtr)] *)
Definition linkToObservation (this : ptr) (_obsPtr : ptr) : M unit :=
  let* obs := get_observation _obsPtr in
  let* sen := get_sensor this in
  put_sensor this
    (mkSensorAbstract (sen_obj sen) (robot sen)
       (StdMap.assign (obs_id obs) _obsPtr (observations sen))
       (pose sen) (ia_globalPose sen)).

(** [void SensorAbstract::linkToRobot(robot_ptr_t _robPtr)] *)
Definition linkToRobot (this : ptr) (_robPtr : option ptr) : M unit :=
  let* sen := get_sensor this in
  put_sensor this
    (mkSensorAbstract (sen_obj sen) _robPtr (observations sen)
       (pose sen) (ia_globalPose sen)).

(** Modelled from the spec: MapAbstract::linkToLandmark is missing from
    the sources.  §4.5: "register it in the map's id→landmark table". *)
Definition map_linkToLandmark (mp : ptr) (lmkPtr : ptr) : M unit :=
  let* lmk := get_landmark lmkPtr in
  let* m := get_map mp in
  put_map mp
    (mkMapAbstract (map_x m) (used_states m) (landmarkIds m)
       (StdMap.assign (id_ (lmk_obj lmk)) lmkPtr (map_landmarks m))).

(** Modelled from the spec: LandmarkAbstract::linkToMap is missing from
    the sources.  §4.5: "link landmark↔map bidirectionally". *)
Definition lmk_linkToMap (lmkPtr : ptr) (mp : ptr) : M unit :=
  let* lmk := get_landmark lmkPtr in
  put_landmark lmkPtr (mkLandmarkAbstract (lmk_obj lmk) (Some mp)).

(** Modelled from the spec: the constructor of
    LandmarkAnchoredHomogeneousPoint is missing from the sources.
    §4.5: "instantiate exactly one new landmark of the configured
    parametrization, reserving its slice from the arena (4.3)". *)
Definition new_LandmarkAnchoredHomogeneousPoint (mp : ptr) : M ptr :=
  let* base := MapObject_map mp size_lmkAHP in
  new_landmark (mkLandmarkAbstract (set_categoryName "LANDMARK" base) None).

(** Modelled from the spec: is the sensor mounted on a robot of map [mp]
    (§5: "Robot is owned by the Map", "Sensor is owned by Robot")? *)
Definition mounted_on (w : World) (mp : ptr) (sen : SensorAbstract) : bool :=
  match robot sen ≫= λ rp, robots w !! rp with
  | Some rob => bool_decide (slamMap rob = Some mp)
  | None => false
  end.

(** Modelled from the spec: one sensor of the loop of the missing
    [MapAbstract::addObservations]; the observation made for the sensor
    carries the id of the landmark (§3) and is handed to
    [linkToObservation]. *)
Definition addObservation (mp lmkPtr : ptr) (senPtr : ptr) : M unit :=
  let* sen := get_sensor senPtr in
  λ w,
    if mounted_on w mp sen then
      (let* lmk := get_landmark lmkPtr in
       let* obsPtr := new_observation
         (mkObservationAbstract (id_ (lmk_obj lmk)) (Some senPtr) (Some lmkPtr)) in
       linkToObservation senPtr obsPtr) w
    else ret () w.

Fixpoint for_each {A} (f : A → M unit) (l : list A) : M unit :=
  match l with
  | [] => ret ()
  | a :: rest => f a ;;; for_each f rest
  end.

(** Modelled from the spec: MapAbstract::addObservations is missing from
    the sources.  §4.5: "link the sensor's observation table under the
    same id"; §3: "the Observation that will track it is linked to the
    Sensor by the same id".  The call carries the landmark only: the
    sensors it reaches are those mounted on the robots of the map (§5:
    "Robot is owned by the Map", "Sensor is owned by Robot"). *)
Definition addObservations (mp : ptr) (lmkPtr : ptr) : M unit :=
  λ w, for_each (addObservation mp lmkPtr) (seq 0 (length (sensors w))) w.

(** ** The processing cycle *)

(** [void SensorAbstract::observeKnownLmks()] *)
Definition observeKnownLmks (this : ptr) : M unit :=
  let* sen := get_sensor this in
  for_each (λ entry : nat * ptr,
      let obsPtr := entry.2 in
      let* obs := get_observation obsPtr in
      print [Str "exploring obs: "; Num (obs_id obs); Endl])
    (observations sen).

(** [landmark_ptr_t SensorAbstract::newLandmark(map_ptr_t slamMapPtr)] *)
Definition newLandmark (this : ptr) (slamMapPtr : option ptr) : M ptr :=
  let* mp := deref slamMapPtr in
  let* lmkPtr := new_LandmarkAnchoredHomogeneousPoint mp in
  let* m := get_map mp in
  let '(lid, pool) := getId (landmarkIds m) in
  put_map mp (mkMapAbstract (map_x m) (used_states m) pool (map_landmarks m)) ;;;
  let* lmk := get_landmark lmkPtr in
  put_landmark lmkPtr
    (mkLandmarkAbstract (set_name "" (set_id lid (lmk_obj lmk))) (lmk_slamMap lmk)) ;;;
  map_linkToLandmark mp lmkPtr ;;;
  lmk_linkToMap lmkPtr mp ;;;
  ret lmkPtr.

(** [void SensorAbstract::discoverNewLmks()] *)
Definition discoverNewLmks (this : ptr) : M unit :=
  let* sen := get_sensor this in
  let* rp := deref (robot sen) in
  let* rob := get_robot rp in
  let slamMapPtr := slamMap rob in
  let size_lmk := size_lmkAHP in
  let* mp := deref slamMapPtr in
  let* m := get_map mp in
  if unusedStates m size_lmk then
    let* lmkPtr := newLandmark this slamMapPtr in
    let* lmk := get_landmark lmkPtr in
    print [Str "    added lmk: "; Num (id_ (lmk_obj lmk)); Endl] ;;;
    addObservations mp lmkPtr
  else ret ().

(** [void SensorAbstract::acquireRaw()]: nothing yet. *)
Definition acquireRaw (this : ptr) : M unit := ret ().

(** [void SensorAbstract::processRaw()] *)
Definition processRaw (this : ptr) : M unit :=
  observeKnownLmks this ;;;
  discoverNewLmks this.

(** ** Global pose of the sensor *)

(** Modelled from the spec: [Gaussian::x()] of the missing gaussian.hpp.
    §3: the mean, owned by a LOCAL quantity and "read through an IndexSet
    view into the shared arena's mean vector" by a REMOTE one. *)
Definition g_x (w : World) (g : Gaussian) : option vec :=
  match storage_ g with
  | LOCAL => Some (x_local g)
  | REMOTE =>
      mp ← g_arena g;
      m ← maps w !! mp;
      mapM (λ k, map_x m !! k) (ia_ g)
  end.

(** The mean of a Gaussian as the code reads it; an index outside the
    arena is an error of ublas. *)
Definition read_x (g : Gaussian) : M vec :=
  λ w, liftE BadIndex (g_x w g) w.

(** [jblas::vec7 v = e]: a bounded vector takes at most 7 cells. *)
Definition to_vec7 (v : vec) : M vec :=
  if length v <=? 7 then ret v else raise BadSize.

(** [jblas::mat M(r, c)] *)
Definition mat_sized (r c : nat) : mat := replicate r (replicate c zero).

(** The cell at row [i], column [j] after the block [b] was written with
    its corner at row [r0], column [c0]; [v] is what the cell held. *)
Definition cell_update (r0 c0 : nat) (b : mat) (i j : nat) (v : scalar) : scalar :=
  if (r0 <=? i) && (i <? r0 + size1 b) && (c0 <=? j) && (j <? c0 + size2 b)
  then default v (mat_at b (i - r0) (j - c0))
  else v.

Definition block_write (m : mat) (r0 c0 : nat) (b : mat) : mat :=
  imap (λ i row, imap (cell_update r0 c0 b i) row) m.

(** [project(m, range(r0, r1), range(c0, c1)) = b] of ublas: the ranges
    must lie inside [m] and [b] must have their size. *)
Definition project_assign (m : mat) (r0 r1 c0 c1 : nat) (b : mat) : M mat :=
  if (r1 <=? size1 m) && (c1 <=? size2 m) then
    if (size1 b =? r1 - r0) && (size2 b =? c1 - c0)
    then ret (block_write m r0 c0 b)
    else raise BadSize
  else raise BadIndex.

(** Modelled from the spec: the three entry points of quatTools.hpp, all
    views of the one primitive of §6.  The Jacobians are written into the
    matrices handed in. *)
Definition composeFrames (F L : vec) : vec := frame_compose F L.

Definition composeFrames_by_dglobal (F L : vec) (C_f : mat) : M mat :=
  project_assign C_f 0 7 0 7 (jacobianWrtBase F L).

Definition composeFrames_by_dlocal (F L : vec) (C_l : mat) : M mat :=
  project_assign C_l 0 7 0 7 (jacobianWrtOffset F L).

Definition composeFrames_jac (F L : vec) (C_f C_l : mat) : M (vec * mat * mat) :=
  let* C_f' := composeFrames_by_dglobal F L C_f in
  let* C_l' := composeFrames_by_dlocal F L C_l in
  ret (composeFrames F L, C_f', C_l').

(** [void SensorAbstract::globalPose(jblas::vec7 & senGlobalPos,
    jblas::mat & SG_rs)]: the two references come in with their current
    content and go out as the result. *)
Definition globalPose (this : ptr) (senGlobalPos : vec) (SG_rs : mat)
    : M (vec * mat) :=
  let* sen := get_sensor this in
  let* rp := deref (robot sen) in
  let* rob := get_robot rp in
  let* robotPose := (let* x := read_x (rob_pose rob) in to_vec7 x) in
  let* sensorPose := (let* x := read_x (pose sen) in to_vec7 x) in
  if decide (storage_ (pose sen) = LOCAL) then
    let senGlobalPos := composeFrames robotPose sensorPose in
    let* SG_rs := composeFrames_by_dglobal robotPose sensorPose SG_rs in
    ret (senGlobalPos, SG_rs)
  else
    let PG_r := mat_sized 7 7 in
    let PG_s := mat_sized 7 7 in
    let* (senGlobalPos, PG_r, PG_s) :=
      composeFrames_jac robotPose sensorPose PG_r PG_s in
    let* SG_rs := project_assign SG_rs 0 7 0 7 PG_r in
    let* SG_rs := project_assign SG_rs 0 7 7 14 PG_s in
    ret (senGlobalPos, SG_rs).

End Rtslam.

Notation "'let*' x ':=' c 'in' k" := (bind c (λ x, k))
  (at level 10, x pattern, c at level 100, k at level 200).
Notation "c1 ';;;' c2" := (bind c1 (λ _, c2))
  (at level 100, c2 at level 200, right associativity).

(** ** A sample world *)

(** One map of 28 cells: the robot in cells 0-6, the pose of a sensor in
    cells 7-13, a landmark in cells 14-20, and 7 cells free.  Scalars are
    integers, a local Gaussian indexes its own cells from 0, and frame
    composition is replaced by a stand-in that adds the two poses. *)
Module Sample.

Definition Z_jblas : Jblas :=
  {| scalar := Z; zero := 0%Z; local_ia := ia_range 0 |}.
#[local] Existing Instance Z_jblas.

Definition diag (d : Z) : mat :=
  imap (λ i row, <[i := d]> row) (replicate 7 (replicate 7 0%Z)).

Definition diag_7x7 (d : Z) : rectangular (diag d) 7 7.
Proof. split; [reflexivity | repeat constructor]. Defined.

Definition Z_quat : QuatTools :=
  {| frame_compose := zip_with Z.add;
     jacobianWrtBase := λ _ _, diag 1;
     jacobianWrtOffset := λ _ _, diag 2;
     jacobianWrtBase_7x7 := λ _ _, diag_7x7 1;
     jacobianWrtOffset_7x7 := λ _ _, diag_7x7 2 |}.

Definition size_lmk : nat := 7.

Definition slice (start : nat) : Gaussian :=
  mkGaussian REMOTE [] (ia_range start 7) (Some 0).

Definition map0 : MapAbstract :=
  mkMapAbstract (Z.of_nat <$> seq 100 28)
    (replicate 21 true ++ replicate 7 false)
    (mkIdFactory 1) [(1, 0)].

Definition rob0 : RobotAbstract :=
  mkRobotAbstract (mkMapObject 1 "rob" "ROBOT" "constant-velocity" (slice 0))
    (slice 0) (Some 0).

(** A second robot, whose pose sits in cells 7-13 of its map. *)
Definition rob1 : RobotAbstract :=
  mkRobotAbstract (mkMapObject 2 "rob" "ROBOT" "constant-velocity" (slice 7))
    (slice 7) (Some 0).

(** A sensor with a LOCAL pose and one known landmark. *)
Definition sen_local : SensorAbstract :=
  mkSensorAbstract (mkMapObject 1 "cam" "SENSOR" "pin-hole" (Gaussian_size 0))
    (Some 0) [(1, 0)]
    (Gaussian_mean (Z.of_nat <$> seq 107 7)) (ia_range 0 7).

(** A sensor whose pose is in the filter. *)
Definition sen_remote : SensorAbstract :=
  mkSensorAbstract (mkMapObject 2 "" "SENSOR" "pin-hole" (slice 7))
    (Some 0) [] (slice 7) (ia_range 0 14).

Definition lmk0 : LandmarkAbstract :=
  mkLandmarkAbstract (mkMapObject 1 "" "LANDMARK" "" (slice 14)) (Some 0).

Definition obs0 : ObservationAbstract :=
  mkObservationAbstract 1 (Some 0) (Some 0).

Definition w0 : World :=
  mkWorld [map0] [rob0] [sen_local; sen_remote] [lmk0] [obs0] [].

(** A map that holds two robots and nothing else yet. *)
Definition map_two : MapAbstract :=
  mkMapAbstract (Z.of_nat <$> seq 100 28)
    (replicate 14 true ++ replicate 14 false)
    (mkIdFactory 0) [].

Definition w_two : World :=
  mkWorld [map_two] [rob0; rob1] [] [] [] [].

Definition robotPose : vec := Z.of_nat <$> seq 100 7.
Definition sensorPose : vec := Z.of_nat <$> seq 107 7.

(** The same world with two more observations in the store, ids 5 and 3,
    not yet linked to a sensor. *)
Definition w_obs : World :=
  mkWorld [map0] [rob0] [sen_local; sen_remote] [lmk0]
    [obs0; mkObservationAbstract 5 (Some 0) None;
     mkObservationAbstract 3 (Some 0) None] [].

(** The same world with every cell of the map in use. *)
Definition map_full : MapAbstract :=
  mkMapAbstract (Z.of_nat <$> seq 100 28) (replicate 28 true)
    (mkIdFactory 1) [(1, 0)].

Definition w_full : World :=
  mkWorld [map_full] [rob0] [sen_local; sen_remote] [lmk0] [obs0] [].

(** The sensor that [SensorAbstract(rob, false)] builds, put in the store
    of the world of the two robots as it is. *)
Definition sen_fresh : SensorAbstract :=
  mkSensorAbstract (set_categoryName "SENSOR" (MapObject_local 0))
    None StdMap.empty (Gaussian_size 7) (local_ia 7).

Definition w_fresh : World :=
  mkWorld [map_two] [rob0; rob1] [sen_fresh] [] [] [].

End Sample.

(** ** Vocabulary of the statements *)

(** The slice [ia] was taken out of the free cells of [old]: its cells were
    free, are used in [new], and no other cell changed. *)
Definition reserved_slice (old new : list bool) (ia : ind_array) : Prop :=
  length new = length old ∧
  (∀ k, k ∈ ia → old !! k = Some false ∧ new !! k = Some true) ∧
  (∀ k, k ∉ ia → new !! k = old !! k).

(** The line that [observeKnownLmks] prints for one entry of the
    observation table. *)
Definition explore_line `{JB : Jblas} (w : World) (entry : nat * ptr) : list item :=
  match obs_store w !! entry.2 with
  | Some obs => [Str "exploring obs: "; Num (obs_id obs); Endl]
  | None => []
  end.

(** Every pointer the sensor [this] follows during a cycle leads to an
    object: the sensor itself, its observations, its robot and the map of
    its robot. *)
Record linked `{JB : Jblas} (w : World) (this : ptr)
    (sen : SensorAbstract) (rob : RobotAbstract) (mp : ptr) (m : MapAbstract)
    : Prop := mkLinked {
  linked_sensor : sensors w !! this = Some sen;
  linked_obs : Forall (λ e : nat * ptr, is_Some (obs_store w !! e.2)) (observations sen);
  linked_robot : robot sen ≫= (λ rp, robots w !! rp) = Some rob;
  linked_slamMap : slamMap rob = Some mp;
  linked_map : maps w !! mp = Some m
}.

(** The columns [c0 .. c1-1] of a matrix. *)
Definition columns `{JB : Jblas} (c0 c1 : nat) (m : mat) : mat :=
  (λ row, take (c1 - c0) (drop c0 row)) <$> m.


(** Two matrices side by side. *)
Definition hcat `{JB : Jblas} (a b : mat) : mat := zip_with app a b.

(** The landmark object that [newLandmark] leaves in the store. *)
Definition fresh_landmark `{JB : Jblas} (size_lmkAHP : nat) (mp : ptr)
    (m : MapAbstract) (start : nat)
    : LandmarkAbstract :=
  mkLandmarkAbstract
    (mkMapObject (S (lastId (landmarkIds m))) "" "LANDMARK" ""
       (mkGaussian REMOTE [] (ia_range start size_lmkAHP) (Some mp)))
    (Some mp).

(** The map after [newLandmark]. *)
Definition map_with_landmark `{JB : Jblas} (size_lmkAHP : nat)
    (m : MapAbstract) (start : nat) (lmkPtr : ptr)
    : MapAbstract :=
  mkMapAbstract (map_x m) (mark_used start size_lmkAHP (used_states m))
    (mkIdFactory (S (lastId (landmarkIds m))))
    (StdMap.assign (S (lastId (landmarkIds m))) lmkPtr (map_landmarks m)).

(** What [addObservations] does to one sensor [p]: when [active], its
    table gains, under the id [lid] of the landmark [lp], an observation
    of that landmark by that sensor; nothing else of the sensor changes. *)
Definition updated_sensor `{JB : Jblas} (lid : nat) (lp : ptr) (w' : World)
    (p : ptr) (active : bool) (sen sen' : SensorAbstract) : Prop :=
  sen_obj sen' = sen_obj sen ∧ robot sen' = robot sen ∧
  pose sen' = pose sen ∧ ia_globalPose sen' = ia_globalPose sen ∧
  if active
  then ∃ op, observations sen' = StdMap.assign lid op (observations sen) ∧
             obs_store w' !! op = Some (mkObservationAbstract lid (Some p) (Some lp))
  else observations sen' = observations sen.

(** The world [w'] after observations of the landmark [lp] were added to
    the sensors [l] among those mounted on the robots of the map [mp]. *)
Record obs_added `{JB : Jblas} (mp lp : ptr) (lid : nat) (l : list ptr)
    (w w' : World) : Prop := mkObsAdded {
  oa_maps : maps w' = maps w;
  oa_robots : robots w' = robots w;
  oa_landmarks : landmarks w' = landmarks w;
  oa_cout : cout w' = cout w;
  oa_obs_store : ∃ ext, obs_store w' = obs_store w ++ ext;
  oa_sensors_length : length (sensors w') = length (sensors w);
  oa_sensors : ∀ p sen, sensors w !! p = Some sen →
    ∃ sen', sensors w' !! p = Some sen' ∧
      updated_sensor lid lp w' p (bool_decide (p ∈ l) && mounted_on w mp sen) sen sen'
}.

(** The world once [discoverNewLmks] has made its landmark and announced
    it, before the observations are added. *)
Definition world_with_landmark `{JB : Jblas} (size_lmkAHP : nat) (w : World)
    (mp : ptr) (m : MapAbstract) (start : nat) : World :=
  mkWorld
    (<[mp := map_with_landmark size_lmkAHP m start (length (landmarks w))]> (maps w))
    (robots w) (sensors w)
    (landmarks w ++ [fresh_landmark size_lmkAHP mp m start])
    (obs_store w)
    (cout w ++ [Str "    added lmk: "; Num (S (lastId (landmarkIds m))); Endl]).

(** What [globalPose] reads: the sensor, its robot, and the means of the
    two poses, each short enough for a [vec7]. *)
Record posed `{JB : Jblas} (w : World) (this : ptr) (sen : SensorAbstract)
    (rob : RobotAbstract) (robotPose sensorPose : vec) : Prop := mkPosed {
  posed_sensor : sensors w !! this = Some sen;
  posed_robot : robot sen ≫= (λ rp, robots w !! rp) = Some rob;
  posed_robotPose : g_x w (rob_pose rob) = Some robotPose;
  posed_robotPose_vec7 : length robotPose ≤ 7;
  posed_sensorPose : g_x w (pose sen) = Some sensorPose;
  posed_sensorPose_vec7 : length sensorPose ≤ 7
}.

(** The table of observations of a sensor is in order: its keys ascend and
    every entry sits under the id of the observation it points to. *)
Definition table_ok `{JB : Jblas} (w : World) (table : StdMap.t ptr) : Prop :=
  StdMap.ascending (StdMap.keys table) ∧
  ∀ k p, (k, p) ∈ table → ∃ obs, obs_store w !! p = Some obs ∧ obs_id obs = k.

(** The sensor [sen] with another table of observations. *)
Definition with_observations `{JB : Jblas} (sen : SensorAbstract)
    (table : StdMap.t ptr) : SensorAbstract :=
  mkSensorAbstract (sen_obj sen) (robot sen) table (pose sen) (ia_globalPose sen).

(** What [operator<<] appends to the stream for a sensor mounted on the
    robot [rob]. *)
Definition sensor_dump `{JB : Jblas} (sen : SensorAbstract) (rob : RobotAbstract)
    : list item :=
  [Str (categoryName_ (sen_obj sen)); Str " "; Num (id_ (sen_obj sen)); Str ": "]
  ++ (if 0 <? String.length (name_ (sen_obj sen))
      then [Str (name_ (sen_obj sen)); Str ", "] else [])
  ++ [Str "of type "; Str (type_ (sen_obj sen)); Endl;
      Str ".pose :  "; ItGaussian (pose sen); Endl;
      Str ".robot: [ "; Num (id_ (rob_obj rob)); Str " ]"]
  ++ (if decide (storage_ (pose sen) = REMOTE)
      then [Endl; Str " ia_rs: "; ItIndArray (ia_globalPose sen)] else []).

(** The map that a cycle of the sensor works on: the map of the robot of
    the sensor, when every pointer on the way leads somewhere. *)
Definition map_of `{JB : Jblas} (w : World) (sen : SensorAbstract)
    : option MapAbstract :=
  rp ← robot sen; rob ← robots w !! rp; mp ← slamMap rob; maps w !! mp.

(** [n] cycles of [processRaw] in a row. *)
Fixpoint cycles `{JB : Jblas} (size_lmkAHP : nat) (this : ptr) (n : nat)
    : M unit :=
  match n with
  | 0 => ret ()
  | S k => processRaw size_lmkAHP this ;;; cycles size_lmkAHP this k
  end.

(** The table of observations after the observations [ops] were linked one
    after the other. *)
Definition link_all `{JB : Jblas} (w : World) (ops : list ptr)
    (table : StdMap.t ptr) : StdMap.t ptr :=
  foldl (λ t op,
           match obs_store w !! op with
           | Some obs => StdMap.assign (obs_id obs) op t
           | None => t
           end) table ops.

(** The line of [observeKnownLmks] for the observation id [k]. *)
Definition explore_id `{JB : Jblas} (k : nat) : list item :=
  [Str "exploring obs: "; Num k; Endl].

(** No landmark of the table of the map carries an id that the pool has
    still to hand out. *)
Definition pool_covers `{JB : Jblas} (m : MapAbstract) : Prop :=
  Forall (λ k, k ≤ lastId (landmarkIds m)) (StdMap.keys (map_landmarks m)).

(** * Properties *)

(** ** Index arrays *)

Lemma elem_of_ia_insert (i k : nat) (a : ind_array) :
  k ∈ ia_insert i a ↔ k = i ∨ k ∈ a.
Proof.
  induction a as [|j t IH]; simpl.
  - rewrite list_elem_of_singleton, elem_of_nil. tauto.
  - destruct (i <? j) eqn:Hlt; [rewrite !elem_of_cons; tauto|].
    destruct (i =? j) eqn:Heq.
    + apply Nat.eqb_eq in Heq. subst. rewrite !elem_of_cons. tauto.
    + rewrite !elem_of_cons, IH. tauto.
Qed.

Lemma elem_of_ia_union (k : nat) (a b : ind_array) :
  k ∈ ia_union a b ↔ k ∈ a ∨ k ∈ b.
Proof.
  unfold ia_union. rewrite <- elem_of_app.
  induction (a ++ b) as [|j t IH]; simpl.
  - reflexivity.
  - rewrite elem_of_ia_insert, IH, elem_of_cons. reflexivity.
Qed.

Lemma ascending_ia_insert (i : nat) (a : ind_array) :
  StdMap.ascending a → StdMap.ascending (ia_insert i a).
Proof.
  induction a as [|j t IH]; simpl.
  - intros _. split; [constructor | exact I].
  - intros [Hj Ht].
    destruct (i <? j) eqn:Hlt.
    + apply Nat.ltb_lt in Hlt. simpl. split; [|split; assumption].
      constructor; [assumption|].
      eapply Forall_impl; [exact Hj|]. simpl. intros. lia.
    + destruct (i =? j) eqn:Heq; simpl; [split; assumption|].
      apply Nat.ltb_ge in Hlt. apply Nat.eqb_neq in Heq.
      split; [|apply IH, Ht].
      apply Forall_forall. intros k Hk.
      apply elem_of_ia_insert in Hk as [->|Hk]; [lia|].
      rewrite Forall_forall in Hj. apply Hj, Hk.
Qed.

Lemma ascending_ia_union (a b : ind_array) : StdMap.ascending (ia_union a b).
Proof.
  unfold ia_union. induction (a ++ b) as [|j t IH]; simpl.
  - exact I.
  - apply ascending_ia_insert, IH.
Qed.

Lemma ia_compose_all (a : ind_array) :
  ia_compose a (ia_range 0 (length a)) = a.
Proof.
  unfold ia_compose, ia_range.
  induction a as [|x t IH] using rev_ind; [reflexivity|].
  rewrite length_app. simpl. rewrite Nat.add_1_r, seq_S. simpl.
  rewrite omap_app. simpl.
  rewrite list_lookup_middle by reflexivity. f_equal. rewrite <- IH at 2.
  apply list_omap_ext. apply Forall2_same_length_lookup. split; [done|].
  intros k x1 x2 H1 H2. rewrite H1 in H2. injection H2 as <-.
  apply lookup_seq in H1 as [-> ?]. simpl.
  apply lookup_app_l. assumption.
Qed.

(** ** [std::map] *)

Module StdMapFacts.
Import StdMap.

Lemma find_assign_eq {V} (k : nat) (v : V) (m : t V) :
  find k (assign k v m) = Some v.
Proof.
  induction m as [|[k' v'] rest IH]; simpl.
  - rewrite Nat.eqb_refl. reflexivity.
  - destruct (k <? k') eqn:Hlt; simpl; [rewrite Nat.eqb_refl; done|].
    destruct (k =? k') eqn:Heq; simpl; [rewrite Nat.eqb_refl; done|].
    rewrite Heq. exact IH.
Qed.

Lemma find_assign_ne {V} (j k : nat) (v : V) (m : t V) :
  j ≠ k → find j (assign k v m) = find j m.
Proof.
  intros Hne. apply Nat.eqb_neq in Hne.
  induction m as [|[k' v'] rest IH]; simpl.
  - rewrite Hne. reflexivity.
  - destruct (k <? k') eqn:Hlt; simpl; [rewrite Hne; done|].
    destruct (k =? k') eqn:Heq; simpl.
    + apply Nat.eqb_eq in Heq. subst k'. rewrite Hne. reflexivity.
    + rewrite IH. reflexivity.
Qed.

Lemma elem_of_assign {V} (e : nat * V) (k : nat) (v : V) (m : t V) :
  e ∈ assign k v m → e = (k, v) ∨ e ∈ m.
Proof.
  induction m as [|[k' v'] rest IH]; simpl.
  - rewrite list_elem_of_singleton. tauto.
  - destruct (k <? k') eqn:Hlt; [rewrite !elem_of_cons; tauto|].
    destruct (k =? k') eqn:Heq; [rewrite !elem_of_cons; tauto|].
    rewrite !elem_of_cons. intros [?|?]; [tauto|].
    destruct IH; tauto.
Qed.

Lemma elem_of_keys_assign {V} (j k : nat) (v : V) (m : t V) :
  j ∈ keys (assign k v m) ↔ j = k ∨ j ∈ keys m.
Proof.
  unfold keys. induction m as [|[k' v'] rest IH]; simpl.
  - rewrite list_elem_of_singleton, elem_of_nil. tauto.
  - destruct (k <? k') eqn:Hlt; [simpl; rewrite !elem_of_cons; tauto|].
    destruct (k =? k') eqn:Heq.
    + apply Nat.eqb_eq in Heq. subst. simpl. rewrite !elem_of_cons. tauto.
    + simpl. rewrite !elem_of_cons, IH. tauto.
Qed.

Lemma ascending_assign {V} (k : nat) (v : V) (m : t V) :
  ascending (keys m) → ascending (keys (assign k v m)).
Proof.
  unfold keys. induction m as [|[k' v'] rest IH]; simpl.
  - intros _. split; [constructor | exact I].
  - intros [Hk' Hrest].
    destruct (k <? k') eqn:Hlt.
    + apply Nat.ltb_lt in Hlt. simpl. split; [|split; assumption].
      constructor; [assumption|].
      eapply Forall_impl; [exact Hk'|]. simpl. intros. lia.
    + destruct (k =? k') eqn:Heq; simpl.
      * apply Nat.eqb_eq in Heq. subst. split; assumption.
      * apply Nat.ltb_ge in Hlt. apply Nat.eqb_neq in Heq.
        split; [|apply IH, Hrest].
        apply Forall_forall. intros j Hj.
        apply (elem_of_keys_assign j k v rest) in Hj as [->|Hj]; [lia|].
        rewrite Forall_forall in Hk'. apply Hk', Hj.
Qed.

Lemma ascending_NoDup (l : list nat) : ascending l → NoDup l.
Proof.
  induction l as [|k rest IH]; simpl; [constructor|].
  intros [Hk Hrest]. constructor; [|apply IH, Hrest].
  intros Hin. rewrite Forall_forall in Hk. specialize (Hk _ Hin). lia.
Qed.

(** In an ascending map, an entry is found under its key. *)
Lemma find_elem_of {V} (k : nat) (v : V) (m : t V) :
  ascending (keys m) → (k, v) ∈ m → find k m = Some v.
Proof.
  unfold keys. induction m as [|[k' v'] rest IH]; simpl.
  - intros _ Hin. inversion Hin.
  - intros [Hk' Hrest] Hin. apply elem_of_cons in Hin as [Heq|Hin].
    + injection Heq as -> ->. rewrite Nat.eqb_refl. reflexivity.
    + destruct (k =? k') eqn:Heq.
      * apply Nat.eqb_eq in Heq. subst k'. exfalso.
        rewrite Forall_forall in Hk'.
        assert (k ∈ rest.*1) by (apply list_elem_of_fmap; exists (k, v); done).
        specialize (Hk' k H). lia.
      * apply IH; assumption.
Qed.

Lemma elem_of_find {V} (k : nat) (v : V) (m : t V) :
  find k m = Some v → (k, v) ∈ m.
Proof.
  induction m as [|[k' v'] rest IH]; simpl; [done|].
  destruct (k =? k') eqn:Heq.
  - apply Nat.eqb_eq in Heq. intros [= ->]. subst. left.
  - intros H. right. apply IH, H.
Qed.

End StdMapFacts.

(** ** The arena *)

Lemma free_prefix_take (n : nat) (l : list bool) :
  free_prefix n l = true ↔ take n l = replicate n false.
Proof.
  revert l. induction n as [|n IH]; intros l; simpl.
  - rewrite take_0. tauto.
  - destruct l as [|[] t]; simpl.
    + split; discriminate.
    + split; discriminate.
    + rewrite IH. split; [intros ->; reflexivity | intros [=]; assumption].
Qed.

Lemma find_free_Some (n : nat) (l : list bool) (off s : nat) :
  find_free n l off = Some s →
  ∃ d, s = off + d ∧ d ≤ length l ∧ take n (drop d l) = replicate n false.
Proof.
  revert off. induction l as [|b t IH]; intros off; simpl.
  - destruct (free_prefix n []) eqn:Hp; [|discriminate].
    intros [= <-]. exists 0. split; [lia|]. split; [simpl; lia|].
    apply free_prefix_take, Hp.
  - destruct (free_prefix n (b :: t)) eqn:Hp.
    + intros [= <-]. exists 0. split; [lia|]. split; [lia|].
      apply free_prefix_take, Hp.
    + intros H. apply IH in H as (d & -> & Hle & Hd).
      exists (S d). split; [lia|]. split; [lia | exact Hd].
Qed.

Lemma find_free_reserved (n : nat) (l : list bool) (s : nat) :
  find_free n l 0 = Some s →
  reserved_slice l (mark_used s n l) (ia_range s n).
Proof.
  intros H. apply find_free_Some in H as (d & -> & Hle & Hd). simpl in *.
  assert (Hlen : d + n ≤ length l).
  { apply (f_equal length) in Hd.
    rewrite length_take, length_drop, length_replicate in Hd. lia. }
  assert (Hfree : ∀ j, j < n → l !! (d + j) = Some false).
  { intros j Hj. rewrite <- lookup_drop, <- (lookup_take_lt _ n) by assumption.
    rewrite Hd. apply lookup_replicate_2, Hj. }
  unfold reserved_slice, mark_used, ia_range. split; [|split].
  - rewrite !length_app, length_take, length_replicate, length_drop. lia.
  - intros k Hk. apply elem_of_seq in Hk.
    replace k with (d + (k - d)) by lia.
    split; [apply Hfree; lia|].
    rewrite lookup_app_r by (rewrite length_take; lia).
    rewrite length_take, Nat.min_l by lia.
    rewrite lookup_app_l by (rewrite length_replicate; lia).
    apply lookup_replicate_2. lia.
  - intros k Hk. rewrite elem_of_seq in Hk.
    destruct (decide (k < d)) as [Hlt|Hge].
    + rewrite lookup_app_l by (rewrite length_take; lia).
      apply lookup_take_lt, Hlt.
    + rewrite lookup_app_r by (rewrite length_take; lia).
      rewrite length_take, Nat.min_l by lia.
      rewrite lookup_app_r by (rewrite length_replicate; lia).
      rewrite length_replicate, lookup_drop. f_equal. lia.
Qed.

Section Properties.

Context `{JB : Jblas} `{QT : !QuatTools}.
Variable size_lmkAHP : nat.

Lemma unusedStates_true (m : MapAbstract) (n : nat) :
  unusedStates m n = true ↔ ∃ s, find_free n (used_states m) 0 = Some s.
Proof. unfold unusedStates. rewrite bool_decide_eq_true. reflexivity. Qed.

Lemma unusedStates_false (m : MapAbstract) (n : nat) :
  unusedStates m n = false ↔ find_free n (used_states m) 0 = None.
Proof.
  unfold unusedStates. rewrite bool_decide_eq_false.
  rewrite <- eq_None_not_Some. reflexivity.
Qed.

(** ** Stores *)

Lemma store_lookup_new {A} (store : list A) (a : A) :
  (store ++ [a]) !! length store = Some a.
Proof. apply list_lookup_middle. reflexivity. Qed.

Lemma store_insert_new {A} (store : list A) (a b : A) :
  <[length store := b]> (store ++ [a]) = store ++ [b].
Proof.
  rewrite insert_app_r_alt by lia. rewrite Nat.sub_diag. reflexivity.
Qed.

Lemma store_insert_lookup {A} (store : list A) (p : nat) (a b : A) :
  store !! p = Some a → <[p := b]> store !! p = Some b.
Proof. intros H. apply list_lookup_insert_eq. eapply lookup_lt_Some, H. Qed.

Lemma set_cout_set_cout (f g : list item → list item) (w : World) :
  set_cout f (set_cout g w) = set_cout (λ s, f (g s)) w.
Proof. reflexivity. Qed.

(** ** Known landmarks *)

Lemma explore_line_cout (f : list item → list item) (w : World) (e : nat * ptr) :
  explore_line (set_cout f w) e = explore_line w e.
Proof. reflexivity. Qed.

Lemma for_each_explore (l : list (nat * ptr)) (w : World) :
  Forall (λ e : nat * ptr, is_Some (obs_store w !! e.2)) l →
  for_each (λ entry : nat * ptr,
      let obsPtr := entry.2 in
      let* obs := get_observation obsPtr in
      print [Str "exploring obs: "; Num (obs_id obs); Endl]) l w
  = Done () (set_cout (λ s, s ++ concat (explore_line w <$> l)) w).
Proof.
  revert w. induction l as [|e rest IH]; intros w Hall; simpl.
  - unfold ret, set_cout. destruct w; simpl. rewrite app_nil_r. reflexivity.
  - apply Forall_cons in Hall as [[obs Hobs] Hrest].
    unfold bind at 1. unfold bind at 1. unfold get_observation, print.
    rewrite Hobs. simpl.
    rewrite IH by exact Hrest.
    unfold explore_line at 2. rewrite Hobs.
    unfold set_cout. simpl. rewrite <- app_assoc. reflexivity.
Qed.

Lemma observeKnownLmks_run (this : ptr) (w : World) (sen : SensorAbstract) :
  sensors w !! this = Some sen →
  Forall (λ e : nat * ptr, is_Some (obs_store w !! e.2)) (observations sen) →
  observeKnownLmks this w
  = Done () (set_cout (λ s, s ++ concat (explore_line w <$> observations sen)) w).
Proof.
  intros Hsen Hobs. unfold observeKnownLmks, bind, get_sensor.
  rewrite Hsen. simpl. apply for_each_explore, Hobs.
Qed.

(** ** Discovery *)

Lemma newLandmark_run (this mp : ptr) (w : World) (m : MapAbstract) (start : nat) :
  maps w !! mp = Some m →
  find_free size_lmkAHP (used_states m) 0 = Some start →
  newLandmark size_lmkAHP this (Some mp) w
  = Done (length (landmarks w))
      (mkWorld
         (<[mp := map_with_landmark size_lmkAHP m start (length (landmarks w))]>
            (maps w))
         (robots w) (sensors w)
         (landmarks w ++ [fresh_landmark size_lmkAHP mp m start])
         (obs_store w) (cout w)).
Proof.
  intros Hm Hfree.
  unfold newLandmark, new_LandmarkAnchoredHomogeneousPoint, MapObject_map,
    reserveStates, map_linkToLandmark, lmk_linkToMap, new_landmark,
    put_map, put_landmark, get_map, get_landmark, bind, deref, ret,
    set_maps, set_landmarks, set_categoryName, set_id, set_name, getId,
    map_with_landmark, fresh_landmark.
  cbn. rewrite Hm. cbn. rewrite Hfree. cbn.
  assert (Hmp : mp < length (maps w)) by (eapply lookup_lt_Some, Hm).
  repeat (rewrite ?store_lookup_new, ?store_insert_new,
            ?list_insert_insert_eq, ?(list_lookup_insert_eq _ _ _ Hmp); cbn).
  reflexivity.
Qed.

Lemma mounted_on_robots (w w2 : World) (mp : ptr) (sen sen2 : SensorAbstract) :
  robots w2 = robots w → robot sen2 = robot sen →
  mounted_on w2 mp sen2 = mounted_on w mp sen.
Proof. intros Hr Hs. unfold mounted_on. rewrite Hr, Hs. reflexivity. Qed.

Lemma for_each_addObservation (mp lp : ptr) (lmk : LandmarkAbstract)
    (l : list ptr) (w : World) :
  NoDup l →
  landmarks w !! lp = Some lmk →
  (∀ p, p ∈ l → p < length (sensors w)) →
  ∃ w', for_each (addObservation mp lp) l w = Done () w' ∧
        obs_added mp lp (id_ (lmk_obj lmk)) l w w'.
Proof.
  revert w. induction l as [|a rest IH]; intros w Hnd Hlmk Hin.
  - exists w. split; [reflexivity|].
    constructor; try reflexivity.
    + exists []. rewrite app_nil_r. reflexivity.
    + intros p sen Hp. exists sen. split; [exact Hp|].
      unfold updated_sensor. simpl. auto.
  - apply NoDup_cons in Hnd as [Ha Hnd].
    destruct (lookup_lt_is_Some_2 (sensors w) a) as [sa Hsa].
    { apply Hin. left. }
    (* the world after the first sensor *)
    assert (Hstep : ∃ w2, addObservation mp lp a w = Done () w2 ∧
              obs_added mp lp (id_ (lmk_obj lmk)) [a] w w2).
    { unfold addObservation, bind at 1. unfold get_sensor at 1.
      rewrite Hsa. simpl.
      destruct (mounted_on w mp sa) eqn:Hmount.
      - unfold linkToObservation, get_landmark, new_observation,
          get_observation, get_sensor, put_sensor, bind, deref, ret,
          set_obs_store, set_sensors.
        cbn. rewrite Hlmk. cbn. rewrite store_lookup_new. cbn.
        rewrite Hsa. cbn.
        eexists. split; [reflexivity|].
        constructor; cbn; try reflexivity.
        + eexists. reflexivity.
        + apply length_insert.
        + intros p sen Hp. destruct (decide (p = a)) as [->|Hne].
          * rewrite Hsa in Hp. injection Hp as <-.
            rewrite (store_insert_lookup _ _ _ _ Hsa).
            eexists. split; [reflexivity|].
            unfold updated_sensor. cbn.
            rewrite bool_decide_eq_true_2 by left. rewrite Hmount. cbn.
            repeat split. eexists. split; [reflexivity|].
            apply store_lookup_new.
          * rewrite list_lookup_insert_ne by congruence.
            exists sen. split; [exact Hp|].
            unfold updated_sensor.
            rewrite bool_decide_eq_false_2
              by (rewrite list_elem_of_singleton; exact Hne).
            cbn. auto.
      - exists w. split; [reflexivity|].
        constructor; try reflexivity.
        + exists []. rewrite app_nil_r. reflexivity.
        + intros p sen Hp. exists sen. split; [exact Hp|].
          unfold updated_sensor.
          destruct (decide (p = a)) as [->|Hne].
          * rewrite Hsa in Hp. injection Hp as <-.
            rewrite Hmount, andb_false_r. auto.
          * rewrite bool_decide_eq_false_2
              by (rewrite list_elem_of_singleton; exact Hne).
            cbn. auto. }
    destruct Hstep as (w2 & Hrun2 & H2).
    destruct H2 as [Hm2 Hr2 Hl2 Hc2 [ext2 Ho2] Hlen2 Hs2].
    destruct (IH w2) as (w' & Hrun' & H'); [exact Hnd | | |].
    { rewrite Hl2. exact Hlmk. }
    { intros p Hp. rewrite Hlen2. apply Hin. right. exact Hp. }
    destruct H' as [Hm' Hr' Hl' Hc' [ext' Ho'] Hlen' Hs'].
    exists w'. split.
    { simpl. unfold bind. rewrite Hrun2. exact Hrun'. }
    constructor; try congruence.
    + exists (ext2 ++ ext'). rewrite Ho', Ho2, app_assoc. reflexivity.
    + intros p sen Hp.
      destruct (Hs2 p sen Hp) as (sen2 & Hp2 & Hob & Hrb & Hps & Hia & Hobs2).
      destruct (Hs' p sen2 Hp2) as (sen' & Hp' & Hob' & Hrb' & Hps' & Hia' & Hobs').
      exists sen'. split; [exact Hp'|].
      unfold updated_sensor.
      rewrite (mounted_on_robots w w2 mp sen sen2 Hr2 Hrb) in Hobs'.
      repeat (split; [congruence|]).
      destruct (decide (p = a)) as [->|Hne].
      * rewrite bool_decide_eq_true_2 in Hobs2 by left.
        rewrite bool_decide_eq_true_2 by left.
        rewrite bool_decide_eq_false_2 in Hobs' by exact Ha.
        cbn in Hobs', Hobs2 |- *.
        destruct (mounted_on w mp sen).
        -- destruct Hobs2 as (op & Htab & Hop). exists op.
           split; [congruence|].
           rewrite Ho'. apply lookup_app_l_Some, Hop.
        -- congruence.
      * rewrite bool_decide_eq_false_2 in Hobs2
          by (rewrite list_elem_of_singleton; exact Hne).
        cbn in Hobs2.
        assert (Hdec : bool_decide (p ∈ a :: rest) = bool_decide (p ∈ rest)).
        { apply bool_decide_ext. rewrite elem_of_cons. tauto. }
        rewrite Hdec.
        destruct (bool_decide (p ∈ rest) && mounted_on w mp sen).
        -- destruct Hobs' as (op & Htab & Hop). exists op.
           split; [congruence | exact Hop].
        -- congruence.
Qed.

Lemma addObservations_run (mp lp : ptr) (lmk : LandmarkAbstract) (w : World) :
  landmarks w !! lp = Some lmk →
  ∃ w', addObservations mp lp w = Done () w' ∧
        obs_added mp lp (id_ (lmk_obj lmk)) (seq 0 (length (sensors w))) w w'.
Proof.
  intros Hlmk. unfold addObservations.
  apply (for_each_addObservation mp lp lmk); [apply NoDup_seq | exact Hlmk |].
  intros p Hp. apply elem_of_seq in Hp. lia.
Qed.

#[local] Arguments newLandmark : simpl never.
#[local] Arguments addObservations : simpl never.
#[local] Arguments observeKnownLmks : simpl never.
#[local] Arguments discoverNewLmks : simpl never.

Lemma linked_robot_inv (w : World) (this : ptr) (sen : SensorAbstract)
    (rob : RobotAbstract) (mp : ptr) (m : MapAbstract) :
  linked w this sen rob mp m →
  ∃ rp, robot sen = Some rp ∧ robots w !! rp = Some rob.
Proof.
  intros [_ _ Hrob _ _]. destruct (robot sen) as [rp|]; [|discriminate].
  exists rp. split; [reflexivity | exact Hrob].
Qed.

Lemma linked_set_cout (f : list item → list item) (w : World) (this : ptr)
    (sen : SensorAbstract) (rob : RobotAbstract) (mp : ptr) (m : MapAbstract) :
  linked w this sen rob mp m → linked (set_cout f w) this sen rob mp m.
Proof. intros [H1 H2 H3 H4 H5]. constructor; assumption. Qed.

Lemma linked_mounted_on (w : World) (this : ptr) (sen : SensorAbstract)
    (rob : RobotAbstract) (mp : ptr) (m : MapAbstract) :
  linked w this sen rob mp m → mounted_on w mp sen = true.
Proof.
  intros [_ _ Hrob Hmap _]. unfold mounted_on. rewrite Hrob.
  apply bool_decide_eq_true_2, Hmap.
Qed.

Lemma discoverNewLmks_skip (this : ptr) (w : World) (sen : SensorAbstract)
    (rob : RobotAbstract) (mp : ptr) (m : MapAbstract) :
  linked w this sen rob mp m →
  unusedStates m size_lmkAHP = false →
  discoverNewLmks size_lmkAHP this w = Done () w.
Proof.
  intros Hl Hfull.
  destruct (linked_robot_inv _ _ _ _ _ _ Hl) as (rp & Hrp & Hrob).
  destruct Hl as [Hsen _ _ Hmp Hm].
  unfold discoverNewLmks, get_sensor, get_robot, get_map, bind, deref, ret.
  rewrite Hsen. cbn. rewrite Hrp. cbn. rewrite Hrob. cbn.
  rewrite Hmp. cbn. rewrite Hm. cbn. rewrite Hfull. reflexivity.
Qed.

Lemma discoverNewLmks_add (this : ptr) (w : World) (sen : SensorAbstract)
    (rob : RobotAbstract) (mp : ptr) (m : MapAbstract) (start : nat) :
  linked w this sen rob mp m →
  find_free size_lmkAHP (used_states m) 0 = Some start →
  ∃ w', discoverNewLmks size_lmkAHP this w = Done () w' ∧
        obs_added mp (length (landmarks w)) (S (lastId (landmarkIds m)))
          (seq 0 (length (sensors w)))
          (world_with_landmark size_lmkAHP w mp m start) w'.
Proof.
  intros Hl Hfree.
  destruct (linked_robot_inv _ _ _ _ _ _ Hl) as (rp & Hrp & Hrob).
  destruct Hl as [Hsen _ _ Hmp Hm].
  assert (Hroom : unusedStates m size_lmkAHP = true)
    by (apply unusedStates_true; eauto).
  destruct (addObservations_run mp (length (landmarks w))
              (fresh_landmark size_lmkAHP mp m start)
              (world_with_landmark size_lmkAHP w mp m start))
    as (w' & Hrun & Hadded).
  { apply store_lookup_new. }
  exists w'. split; [|exact Hadded].
  unfold discoverNewLmks, get_sensor, get_robot, get_map, bind, deref, ret.
  rewrite Hsen. cbn. rewrite Hrp. cbn. rewrite Hrob. cbn.
  rewrite Hmp. cbn. rewrite Hm. cbn. rewrite Hroom.
  rewrite (newLandmark_run this mp w m start Hm Hfree).
  unfold get_landmark, print, deref, ret, set_cout. cbn.
  rewrite store_lookup_new. cbn. exact Hrun.
Qed.

(** ** The processing cycle *)

(** C3.  One cycle of a sensor whose links are in place completes without
    error and makes at most one landmark.  When the map reports no room for
    the parametrization, the store of landmarks and the maps are as before.
    When it reports room, exactly one landmark is added to the store, its
    state is the REMOTE view of a slice of the parametrization's size, and
    that slice was taken out of the free cells of the map of the robot. *)
Theorem processRaw_one_landmark_per_cycle (this : ptr) (w : World)
    (sen : SensorAbstract) (rob : RobotAbstract) (mp : ptr) (m : MapAbstract) :
  linked w this sen rob mp m →
  ∃ w', processRaw size_lmkAHP this w = Done () w' ∧
    length (landmarks w') ≤ S (length (landmarks w)) ∧
    if unusedStates m size_lmkAHP
    then ∃ lmk start m',
           landmarks w' = landmarks w ++ [lmk] ∧
           state (lmk_obj lmk)
             = mkGaussian REMOTE [] (ia_range start size_lmkAHP) (Some mp) ∧
           maps w' = <[mp := m']> (maps w) ∧
           reserved_slice (used_states m) (used_states m')
             (ia_range start size_lmkAHP)
    else landmarks w' = landmarks w ∧ maps w' = maps w.
Proof.
  intros Hl.
  pose proof (observeKnownLmks_run this w sen (linked_sensor _ _ _ _ _ _ Hl)
                (linked_obs _ _ _ _ _ _ Hl)) as Hobs.
  set (w1 := set_cout (λ s, s ++ concat (explore_line w <$> observations sen)) w)
    in Hobs.
  assert (Hl1 : linked w1 this sen rob mp m) by (apply linked_set_cout, Hl).
  unfold processRaw, bind. rewrite Hobs.
  destruct (unusedStates m size_lmkAHP) eqn:Hroom.
  - apply unusedStates_true in Hroom as [start Hfree].
    destruct (discoverNewLmks_add this w1 sen rob mp m start Hl1 Hfree)
      as (w' & Hrun & Hadded).
    exists w'. split; [exact Hrun|].
    destruct Hadded as [Hmaps _ Hlmks _ _ _ _]. cbn in Hmaps, Hlmks.
    split.
    + rewrite Hlmks, length_app. simpl. lia.
    + exists (fresh_landmark size_lmkAHP mp m start), start,
        (map_with_landmark size_lmkAHP m start (length (landmarks w))).
      split; [exact Hlmks|]. split; [reflexivity|].
      split; [exact Hmaps|].
      apply (find_free_reserved _ _ _ Hfree).
  - exists w1. split.
    + apply (discoverNewLmks_skip this w1 sen rob mp m Hl1 Hroom).
    + split; [simpl; lia|]. split; reflexivity.
Qed.

(** C5.  When discovery finds room, the landmark it makes carries the next
    identifier of the id pool of the map, the pool has moved on, the table
    of the map holds the landmark under that identifier, the landmark
    points back to the map, and the table of observations of the sensor
    holds, under the same identifier, an observation of that landmark by
    that sensor. *)
Theorem discoverNewLmks_registers_landmark (this : ptr) (w : World)
    (sen : SensorAbstract) (rob : RobotAbstract) (mp : ptr) (m : MapAbstract) :
  linked w this sen rob mp m →
  unusedStates m size_lmkAHP = true →
  ∃ w' lmk m' sen' op,
    let lmkPtr := length (landmarks w) in
    let lid := (getId (landmarkIds m)).1 in
    discoverNewLmks size_lmkAHP this w = Done () w' ∧
    landmarks w' !! lmkPtr = Some lmk ∧
    id_ (lmk_obj lmk) = lid ∧
    maps w' !! mp = Some m' ∧
    landmarkIds m' = (getId (landmarkIds m)).2 ∧
    StdMap.find lid (map_landmarks m') = Some lmkPtr ∧
    lmk_slamMap lmk = Some mp ∧
    sensors w' !! this = Some sen' ∧
    StdMap.find lid (observations sen') = Some op ∧
    obs_store w' !! op = Some (mkObservationAbstract lid (Some this) (Some lmkPtr)).
Proof.
  intros Hl Hroom.
  apply unusedStates_true in Hroom as [start Hfree].
  destruct (discoverNewLmks_add this w sen rob mp m start Hl Hfree)
    as (w' & Hrun & Hadded).
  destruct Hadded as [Hmaps _ Hlmks _ _ _ Hsens]. cbn in Hmaps, Hlmks.
  pose proof (linked_mounted_on _ _ _ _ _ _ Hl) as Hmount.
  destruct Hl as [Hsen _ _ _ Hm].
  destruct (Hsens this sen Hsen) as (sen' & Hsen' & _ & _ & _ & _ & Hobs).
  rewrite bool_decide_eq_true_2 in Hobs
    by (apply elem_of_seq; apply lookup_lt_Some in Hsen; simpl; lia).
  rewrite (mounted_on_robots w (world_with_landmark size_lmkAHP w mp m start)
             mp sen sen eq_refl eq_refl), Hmount in Hobs.
  cbn in Hobs. destruct Hobs as (op & Htab & Hop).
  exists w', (fresh_landmark size_lmkAHP mp m start),
    (map_with_landmark size_lmkAHP m start (length (landmarks w))), sen', op.
  cbn. repeat split.
  - exact Hrun.
  - rewrite Hlmks. apply store_lookup_new.
  - rewrite Hmaps. apply (store_insert_lookup _ _ _ _ Hm).
  - apply StdMapFacts.find_assign_eq.
  - exact Hsen'.
  - rewrite Htab. apply StdMapFacts.find_assign_eq.
  - exact Hop.
Qed.

(** C6.  A cycle is the visit of the known observations followed by
    discovery.  The visit prints one line for every entry of the table of
    observations as it stands on entry, in the order of the keys, and
    changes nothing but the output; discovery then runs on that world, and
    what it prints, if anything, comes after the lines of the visit. *)
Theorem processRaw_observes_then_discovers (this : ptr) (w : World)
    (sen : SensorAbstract) (rob : RobotAbstract) (mp : ptr) (m : MapAbstract) :
  linked w this sen rob mp m →
  ∃ w1 w' tail,
    observeKnownLmks this w = Done () w1 ∧
    w1 = set_cout (λ s, s ++ concat (explore_line w <$> observations sen)) w ∧
    discoverNewLmks size_lmkAHP this w1 = Done () w' ∧
    processRaw size_lmkAHP this w = Done () w' ∧
    cout w' = cout w ++ concat (explore_line w <$> observations sen) ++ tail ∧
    tail = (if unusedStates m size_lmkAHP
            then [Str "    added lmk: "; Num (getId (landmarkIds m)).1; Endl]
            else []).
Proof.
  intros Hl.
  pose proof (observeKnownLmks_run this w sen (linked_sensor _ _ _ _ _ _ Hl)
                (linked_obs _ _ _ _ _ _ Hl)) as Hobs.
  set (w1 := set_cout (λ s, s ++ concat (explore_line w <$> observations sen)) w)
    in Hobs.
  assert (Hl1 : linked w1 this sen rob mp m) by (apply linked_set_cout, Hl).
  exists w1.
  destruct (unusedStates m size_lmkAHP) eqn:Hroom.
  - apply unusedStates_true in Hroom as [start Hfree].
    destruct (discoverNewLmks_add this w1 sen rob mp m start Hl1 Hfree)
      as (w' & Hrun & Hadded).
    exists w', [Str "    added lmk: "; Num (getId (landmarkIds m)).1; Endl].
    repeat split; try assumption.
    + unfold processRaw, bind. rewrite Hobs. exact Hrun.
    + rewrite (oa_cout _ _ _ _ _ _ Hadded). cbn. rewrite <- app_assoc.
      reflexivity.
  - exists w1, []. repeat split; try assumption.
    + apply (discoverNewLmks_skip this w1 sen rob mp m Hl1 Hroom).
    + unfold processRaw, bind. rewrite Hobs.
      apply (discoverNewLmks_skip this w1 sen rob mp m Hl1 Hroom).
    + cbn. rewrite app_nil_r. reflexivity.
Qed.

(** ** Matrices *)

Lemma mat_at_block_write (m : mat) (r0 c0 : nat) (b : mat) (i j : nat) :
  mat_at (block_write m r0 c0 b) i j = cell_update r0 c0 b i j <$> mat_at m i j.
Proof.
  unfold mat_at, block_write. rewrite list_lookup_imap.
  destruct (m !! i) as [row|]; simpl; [|reflexivity].
  apply list_lookup_imap.
Qed.

Lemma block_write_rows (m : mat) (r0 c0 : nat) (b : mat) (i : nat) :
  length <$> block_write m r0 c0 b !! i = length <$> m !! i.
Proof.
  unfold block_write. rewrite list_lookup_imap.
  destruct (m !! i) as [row|]; simpl; [|reflexivity].
  rewrite length_imap. reflexivity.
Qed.

Lemma size1_block_write (m : mat) (r0 c0 : nat) (b : mat) :
  size1 (block_write m r0 c0 b) = size1 m.
Proof. apply length_imap. Qed.

Lemma size2_block_write (m : mat) (r0 c0 : nat) (b : mat) :
  size2 (block_write m r0 c0 b) = size2 m.
Proof. destruct m as [|row rest]; simpl; [reflexivity | apply length_imap]. Qed.

Lemma rectangular_block_write (m : mat) (r c r0 c0 : nat) (b : mat) :
  rectangular m r c → rectangular (block_write m r0 c0 b) r c.
Proof.
  intros [Hr Hc]. split.
  - rewrite <- Hr. apply length_imap.
  - apply Forall_lookup. intros i row Hrow.
    pose proof (block_write_rows m r0 c0 b i) as Hlen.
    rewrite Hrow in Hlen. simpl in Hlen.
    destruct (m !! i) as [row0|] eqn:Hrow0; [|discriminate].
    simpl in Hlen. injection Hlen as ->.
    exact (Forall_lookup_1 _ _ _ _ Hc Hrow0).
Qed.

Lemma rectangular_sizes (m : mat) (r c : nat) :
  rectangular m r c → 0 < r → size1 m = r ∧ size2 m = c.
Proof.
  intros [Hr Hc] Hpos. split; [exact Hr|].
  destruct m as [|row rest]; simpl in *; [lia|].
  apply Forall_cons in Hc as [Hrow _]. exact Hrow.
Qed.

Lemma rectangular_mat_at (m : mat) (r c i j : nat) :
  rectangular m r c → i < r → j < c → is_Some (mat_at m i j).
Proof.
  intros [Hr Hc] Hi Hj. unfold mat_at.
  destruct (lookup_lt_is_Some_2 m i) as [row Hrow]; [lia|].
  rewrite Hrow. simpl. apply lookup_lt_is_Some_2.
  rewrite (Forall_lookup_1 _ _ _ _ Hc Hrow). exact Hj.
Qed.

(** Two matrices of one shape with the same cells are equal. *)
Lemma mat_ext (m1 m2 : mat) (r c : nat) :
  rectangular m1 r c → rectangular m2 r c →
  (∀ i j, i < r → j < c → mat_at m1 i j = mat_at m2 i j) →
  m1 = m2.
Proof.
  intros [Hr1 Hc1] [Hr2 Hc2] Hcells. apply list_eq. intros i.
  destruct (decide (i < r)) as [Hi|Hi].
  - destruct (lookup_lt_is_Some_2 m1 i) as [row1 Hrow1]; [lia|].
    destruct (lookup_lt_is_Some_2 m2 i) as [row2 Hrow2]; [lia|].
    rewrite Hrow1, Hrow2. f_equal. apply list_eq. intros j.
    pose proof (Forall_lookup_1 _ _ _ _ Hc1 Hrow1) as Hl1.
    pose proof (Forall_lookup_1 _ _ _ _ Hc2 Hrow2) as Hl2.
    simpl in Hl1, Hl2.
    destruct (decide (j < c)) as [Hj|Hj].
    + specialize (Hcells i j Hi Hj). unfold mat_at in Hcells.
      rewrite Hrow1, Hrow2 in Hcells. exact Hcells.
    + rewrite !lookup_ge_None_2 by lia. reflexivity.
  - rewrite !lookup_ge_None_2 by lia. reflexivity.
Qed.

Lemma rectangular_mat_sized (r c : nat) : rectangular (mat_sized r c) r c.
Proof.
  unfold mat_sized. split; [apply length_replicate|].
  apply Forall_replicate. apply length_replicate.
Qed.

Lemma cell_update_in (r0 c0 : nat) (b : mat) (i j : nat) (u v : scalar) :
  r0 ≤ i < r0 + size1 b → c0 ≤ j < c0 + size2 b →
  mat_at b (i - r0) (j - c0) = Some u →
  cell_update r0 c0 b i j v = u.
Proof.
  intros [Hi1 Hi2] [Hj1 Hj2] Hu. unfold cell_update.
  apply Nat.leb_le in Hi1, Hj1. apply Nat.ltb_lt in Hi2, Hj2.
  rewrite Hi1, Hi2, Hj1, Hj2, Hu. reflexivity.
Qed.

Lemma cell_update_out (r0 c0 : nat) (b : mat) (i j : nat) (v : scalar) :
  ¬ (r0 ≤ i < r0 + size1 b ∧ c0 ≤ j < c0 + size2 b) →
  cell_update r0 c0 b i j v = v.
Proof.
  intros Hout. unfold cell_update.
  destruct (r0 <=? i) eqn:H1; [|reflexivity].
  destruct (i <? r0 + size1 b) eqn:H2; [|reflexivity].
  destruct (c0 <=? j) eqn:H3; [|reflexivity].
  destruct (j <? c0 + size2 b) eqn:H4; [|reflexivity].
  exfalso. apply Hout.
  apply Nat.leb_le in H1, H3. apply Nat.ltb_lt in H2, H4. lia.
Qed.

(** A block as large as the matrix replaces it. *)
Lemma block_write_all (m b : mat) (r c : nat) :
  0 < r → rectangular m r c → rectangular b r c → block_write m 0 0 b = b.
Proof.
  intros Hpos Hm Hb.
  apply (mat_ext _ _ r c); [apply rectangular_block_write, Hm | exact Hb |].
  intros i j Hi Hj. rewrite mat_at_block_write.
  destruct (rectangular_mat_at m r c i j Hm Hi Hj) as [v Hv].
  destruct (rectangular_mat_at b r c i j Hb Hi Hj) as [u Hu].
  destruct (rectangular_sizes b r c Hb Hpos) as [Hs1 Hs2].
  rewrite Hv, Hu. simpl. f_equal.
  apply cell_update_in; rewrite ?Hs1, ?Hs2, ?Nat.sub_0_r; [lia..|exact Hu].
Qed.

Lemma hcat_row (a b : mat) (r c1 c2 i : nat) :
  rectangular a r c1 → rectangular b r c2 → i < r →
  ∃ ra rb, a !! i = Some ra ∧ b !! i = Some rb ∧
           length ra = c1 ∧ length rb = c2 ∧
           hcat a b !! i = Some (ra ++ rb).
Proof.
  intros [Ha1 Ha2] [Hb1 Hb2] Hi.
  destruct (lookup_lt_is_Some_2 a i) as [ra Hra]; [lia|].
  destruct (lookup_lt_is_Some_2 b i) as [rb Hrb]; [lia|].
  exists ra, rb. unfold hcat. rewrite lookup_zip_with, Hra, Hrb.
  repeat split.
  - exact (Forall_lookup_1 _ _ _ _ Ha2 Hra).
  - exact (Forall_lookup_1 _ _ _ _ Hb2 Hrb).
Qed.

Lemma rectangular_hcat (a b : mat) (r c1 c2 : nat) :
  rectangular a r c1 → rectangular b r c2 → rectangular (hcat a b) r (c1 + c2).
Proof.
  intros Ha Hb. split.
  - unfold hcat. rewrite length_zip_with. destruct Ha as [-> _], Hb as [-> _]. lia.
  - apply Forall_lookup. intros i row Hrow.
    assert (Hi : i < r).
    { apply lookup_lt_Some in Hrow. unfold hcat in Hrow.
      rewrite length_zip_with in Hrow. destruct Ha as [<- _]. lia. }
    destruct (hcat_row a b r c1 c2 i Ha Hb Hi) as (ra & rb & _ & _ & H1 & H2 & Hab).
    rewrite Hrow in Hab. injection Hab as ->. rewrite length_app. lia.
Qed.

Lemma mat_at_hcat (a b : mat) (r c1 c2 i j : nat) :
  rectangular a r c1 → rectangular b r c2 → i < r →
  mat_at (hcat a b) i j
  = if decide (j < c1) then mat_at a i j else mat_at b i (j - c1).
Proof.
  intros Ha Hb Hi.
  destruct (hcat_row a b r c1 c2 i Ha Hb Hi) as (ra & rb & Hra & Hrb & H1 & H2 & Hab).
  unfold mat_at. rewrite Hab, Hra, Hrb. simpl.
  destruct (decide (j < c1)) as [Hj|Hj].
  - apply lookup_app_l. lia.
  - rewrite lookup_app_r by lia. rewrite H1. reflexivity.
Qed.

Lemma columns_hcat_l (a b : mat) (r c1 c2 : nat) :
  rectangular a r c1 → rectangular b r c2 → columns 0 c1 (hcat a b) = a.
Proof.
  intros Ha Hb. apply list_eq. intros i. unfold columns.
  rewrite list_lookup_fmap.
  destruct (decide (i < r)) as [Hi|Hi].
  - destruct (hcat_row a b r c1 c2 i Ha Hb Hi) as (ra & rb & Hra & _ & H1 & _ & Hab).
    rewrite Hab, Hra. simpl. f_equal.
    rewrite Nat.sub_0_r, drop_0. apply take_app_length'. congruence.
  - unfold hcat. rewrite lookup_zip_with.
    destruct Ha as [Hlen _]. rewrite (lookup_ge_None_2 a) by lia. reflexivity.
Qed.

Lemma columns_hcat_r (a b : mat) (r c1 c2 : nat) :
  rectangular a r c1 → rectangular b r c2 →
  columns c1 (c1 + c2) (hcat a b) = b.
Proof.
  intros Ha Hb. apply list_eq. intros i. unfold columns.
  rewrite list_lookup_fmap.
  destruct (decide (i < r)) as [Hi|Hi].
  - destruct (hcat_row a b r c1 c2 i Ha Hb Hi) as (ra & rb & _ & Hrb & H1 & H2 & Hab).
    rewrite Hab, Hrb. simpl. f_equal.
    rewrite drop_app_length' by congruence. apply take_ge. lia.
  - unfold hcat. rewrite lookup_zip_with.
    destruct Ha as [Hlen _], Hb as [Hlenb _].
    rewrite (lookup_ge_None_2 a), (lookup_ge_None_2 b) by lia. reflexivity.
Qed.

(** Writing [a] at column 0 and [b] at column 7 of a 7x14 matrix leaves the
    two blocks side by side. *)
Lemma block_write_hcat (m a b : mat) :
  rectangular m 7 14 → rectangular a 7 7 → rectangular b 7 7 →
  block_write (block_write m 0 0 a) 0 7 b = hcat a b.
Proof.
  intros Hm Ha Hb.
  apply (mat_ext _ _ 7 14).
  - do 2 apply rectangular_block_write. exact Hm.
  - apply (rectangular_hcat a b 7 7 7 Ha Hb).
  - intros i j Hi Hj.
    rewrite !mat_at_block_write, (mat_at_hcat a b 7 7 7) by assumption.
    destruct (rectangular_mat_at m 7 14 i j Hm Hi Hj) as [v ->]. simpl.
    destruct (rectangular_sizes a 7 7 Ha) as [Ha1 Ha2]; [lia|].
    destruct (rectangular_sizes b 7 7 Hb) as [Hb1 Hb2]; [lia|].
    destruct (decide (j < 7)) as [Hlt|Hge].
    + destruct (rectangular_mat_at a 7 7 i j Ha Hi Hlt) as [u Hu].
      rewrite (cell_update_in 0 0 a i j u v), Hu;
        rewrite ?Ha1, ?Ha2, ?Nat.sub_0_r; [|lia..|exact Hu].
      f_equal. apply cell_update_out. rewrite Hb2. lia.
    + destruct (rectangular_mat_at b 7 7 i (j - 7) Hb Hi) as [u Hu]; [lia|].
      rewrite (cell_update_out 0 0 a i j v) by (rewrite Ha2; lia).
      rewrite Hu. f_equal. apply cell_update_in;
        rewrite ?Hb1, ?Hb2, ?Nat.sub_0_r; [lia..|exact Hu].
Qed.

Lemma imap_twice {A B C} (f : nat → B → C) (g : nat → A → B) (l : list A) :
  imap f (imap g l) = imap (λ i x, f i (g i x)) l.
Proof.
  apply list_eq. intros i. rewrite !list_lookup_imap.
  destruct (l !! i); reflexivity.
Qed.

Lemma block_write_twice_cells (m : mat) (r0 c0 r1 c1 : nat) (a b : mat) :
  block_write (block_write m r0 c0 a) r1 c1 b
  = imap (λ i row,
      imap (λ j v, cell_update r1 c1 b i j (cell_update r0 c0 a i j v)) row) m.
Proof.
  unfold block_write. rewrite imap_twice. apply imap_ext. intros i row _.
  apply imap_twice.
Qed.

(** A cell is either kept or overwritten, whatever it held. *)
Lemma cell_update_cases (r0 c0 : nat) (b : mat) (i j : nat) :
  (∀ v, cell_update r0 c0 b i j v = v) ∨
  (∃ u, ∀ v, cell_update r0 c0 b i j v = u).
Proof.
  unfold cell_update.
  destruct ((r0 <=? i) && (i <? r0 + size1 b) && (c0 <=? j) && (j <? c0 + size2 b));
    [|left; reflexivity].
  destruct (mat_at b (i - r0) (j - c0)) as [u|]; [right; exists u|left]; reflexivity.
Qed.

(** Writing the same two blocks again changes nothing. *)
Lemma block_write_again (m : mat) (r0 c0 r1 c1 : nat) (a b : mat) :
  let m' := block_write (block_write m r0 c0 a) r1 c1 b in
  block_write (block_write m' r0 c0 a) r1 c1 b = m'.
Proof.
  intros m'. subst m'. rewrite (block_write_twice_cells m).
  rewrite block_write_twice_cells. rewrite imap_twice.
  apply imap_ext. intros i row _. rewrite imap_twice.
  apply imap_ext. intros j v _.
  destruct (cell_update_cases r1 c1 b i j) as [Hb|[ub Hb]];
    destruct (cell_update_cases r0 c0 a i j) as [Ha|[ua Ha]];
    rewrite ?Hb, ?Ha, ?Hb, ?Ha; reflexivity.
Qed.

Lemma block_write_once_again (m : mat) (r0 c0 : nat) (a : mat) :
  block_write (block_write m r0 c0 a) r0 c0 a = block_write m r0 c0 a.
Proof.
  unfold block_write. rewrite imap_twice.
  apply imap_ext. intros i row _. rewrite imap_twice.
  apply imap_ext. intros j v _.
  destruct (cell_update_cases r0 c0 a i j) as [Ha|[ua Ha]];
    rewrite ?Ha, ?Ha; reflexivity.
Qed.

(** ** Global pose *)

Lemma project_assign_run (m : mat) (r0 r1 c0 c1 : nat) (b : mat) (w : World) :
  r1 ≤ size1 m → c1 ≤ size2 m → size1 b = r1 - r0 → size2 b = c1 - c0 →
  project_assign m r0 r1 c0 c1 b w = Done (block_write m r0 c0 b) w.
Proof.
  intros H1 H2 H3 H4. unfold project_assign.
  apply Nat.leb_le in H1, H2. apply Nat.eqb_eq in H3, H4.
  rewrite H1, H2, H3, H4. reflexivity.
Qed.

Lemma project_assign_inv (m : mat) (r0 r1 c0 c1 : nat) (b : mat) (w w' : World)
    (m' : mat) :
  project_assign m r0 r1 c0 c1 b w = Done m' w' →
  w' = w ∧ m' = block_write m r0 c0 b ∧
  r1 ≤ size1 m ∧ c1 ≤ size2 m ∧ size1 b = r1 - r0 ∧ size2 b = c1 - c0.
Proof.
  unfold project_assign.
  destruct (r1 <=? size1 m) eqn:H1; [|discriminate].
  destruct (c1 <=? size2 m) eqn:H2; [|discriminate].
  destruct (size1 b =? r1 - r0) eqn:H3; [|discriminate].
  destruct (size2 b =? c1 - c0) eqn:H4; [|discriminate].
  simpl. unfold ret. intros [= <- <-].
  apply Nat.leb_le in H1, H2. apply Nat.eqb_eq in H3, H4.
  repeat split; assumption.
Qed.

Lemma jacobian_sizes (F L : vec) :
  size1 (jacobianWrtBase F L) = 7 ∧ size2 (jacobianWrtBase F L) = 7 ∧
  size1 (jacobianWrtOffset F L) = 7 ∧ size2 (jacobianWrtOffset F L) = 7.
Proof.
  destruct (rectangular_sizes _ 7 7 (jacobianWrtBase_7x7 F L)) as [? ?]; [lia|].
  destruct (rectangular_sizes _ 7 7 (jacobianWrtOffset_7x7 F L)) as [? ?]; [lia|].
  auto.
Qed.

Lemma composeFrames_jac_run (F L : vec) (w : World) :
  composeFrames_jac F L (mat_sized 7 7) (mat_sized 7 7) w
  = Done (frame_compose F L, jacobianWrtBase F L, jacobianWrtOffset F L) w.
Proof.
  destruct (jacobian_sizes F L) as (H1 & H2 & H3 & H4).
  unfold composeFrames_jac, composeFrames_by_dglobal, composeFrames_by_dlocal,
    composeFrames, bind, ret.
  rewrite !project_assign_run by (rewrite ?H1, ?H2, ?H3, ?H4; reflexivity).
  rewrite !(block_write_all _ _ 7 7);
    auto using rectangular_mat_sized, jacobianWrtBase_7x7, jacobianWrtOffset_7x7
    with lia.
Qed.

#[local] Arguments mat_sized : simpl never.

(** The Jacobian that [globalPose] leaves in [SG_rs]. *)
Lemma globalPose_run (this : ptr) (w : World) (sen : SensorAbstract)
    (rob : RobotAbstract) (r sp g : vec) (SG_rs : mat) :
  posed w this sen rob r sp →
  7 ≤ size1 SG_rs →
  (match storage_ (pose sen) with LOCAL => 7 | REMOTE => 14 end) ≤ size2 SG_rs →
  globalPose this g SG_rs w
  = Done (frame_compose r sp,
          match storage_ (pose sen) with
          | LOCAL => block_write SG_rs 0 0 (jacobianWrtBase r sp)
          | REMOTE => block_write (block_write SG_rs 0 0 (jacobianWrtBase r sp))
                        0 7 (jacobianWrtOffset r sp)
          end) w.
Proof.
  intros [Hsen Hrob Hr Hr7 Hsp Hsp7] Hrows Hcols.
  destruct (robot sen) as [rp|] eqn:Hrp; [|discriminate]. simpl in Hrob.
  destruct (jacobian_sizes r sp) as (H1 & H2 & H3 & H4).
  apply Nat.leb_le in Hr7, Hsp7.
  unfold globalPose, get_sensor, get_robot, read_x, liftE, to_vec7,
    bind at 1 2 3 4 5 6 7.
  unfold deref, ret.
  rewrite Hsen. cbn. rewrite Hrp. cbn. rewrite Hrob. cbn.
  rewrite Hr. cbn. rewrite Hr7. cbn.
  rewrite Hsp. cbn. rewrite Hsp7. cbn.
  destruct (storage_ (pose sen)); case_decide; try congruence.
  - unfold composeFrames_by_dglobal, composeFrames, bind.
    rewrite project_assign_run by (rewrite ?H1, ?H2; lia). reflexivity.
  - unfold bind at 1. rewrite composeFrames_jac_run.
    unfold bind.
    rewrite project_assign_run by (rewrite ?H1, ?H2; lia).
    rewrite project_assign_run
      by (rewrite ?size1_block_write, ?size2_block_write, ?H3, ?H4; lia).
    reflexivity.
Qed.

(** A call that returns has read what [posed] lists and found [SG_rs] large
    enough. *)
Lemma globalPose_inv (this : ptr) (w w' : World) (g : vec) (SG_rs : mat)
    (res : vec * mat) :
  globalPose this g SG_rs w = Done res w' →
  ∃ sen rob r sp,
    posed w this sen rob r sp ∧ 7 ≤ size1 SG_rs ∧
    (match storage_ (pose sen) with LOCAL => 7 | REMOTE => 14 end) ≤ size2 SG_rs.
Proof.
  unfold globalPose, get_sensor, get_robot, read_x, liftE, to_vec7,
    bind at 1 2 3 4 5 6 7.
  unfold deref, ret, raise.
  destruct (sensors w !! this) as [sen|] eqn:Hsen; [|discriminate].
  destruct (robot sen) as [rp|] eqn:Hrp; [|discriminate].
  destruct (robots w !! rp) as [rob|] eqn:Hrob; [|discriminate].
  destruct (g_x w (rob_pose rob)) as [r|] eqn:Hr; [|discriminate].
  destruct (length r <=? 7) eqn:Hr7; [|discriminate].
  destruct (g_x w (pose sen)) as [sp|] eqn:Hsp; [|discriminate].
  destruct (length sp <=? 7) eqn:Hsp7; [|discriminate].
  apply Nat.leb_le in Hr7, Hsp7.
  intros Hrun. exists sen, rob, r, sp.
  split; [constructor; try assumption; rewrite Hrp; exact Hrob|].
  destruct (storage_ (pose sen)); case_decide; try congruence.
  - unfold composeFrames_by_dglobal, bind in Hrun.
    destruct (project_assign SG_rs 0 7 0 7 (jacobianWrtBase r sp) w)
      as [m1 w1|] eqn:Hpa; [|discriminate].
    apply project_assign_inv in Hpa. tauto.
  - unfold bind at 1 in Hrun. rewrite composeFrames_jac_run in Hrun.
    unfold bind in Hrun.
    destruct (project_assign SG_rs 0 7 0 7 (jacobianWrtBase r sp) w)
      as [m1 w1|] eqn:Hpa1; [|discriminate].
    destruct (project_assign m1 0 7 7 14 (jacobianWrtOffset r sp) w1)
      as [m2 w2|] eqn:Hpa2; [|discriminate].
    apply project_assign_inv in Hpa1 as (-> & -> & Hrows & _).
    apply project_assign_inv in Hpa2 as (_ & _ & _ & Hcols & _).
    rewrite size2_block_write in Hcols. auto.
Qed.

(** C2.  The Jacobian that [globalPose] returns is decided by the storage
    of the pose of the sensor.  LOCAL: handed a 7x7 matrix, the call
    returns the 7x7 Jacobian of the composed pose with respect to the pose
    of the robot.  REMOTE: handed a 7x14 matrix, it returns the 7x14 matrix
    whose columns 0-6 are the Jacobian with respect to the pose of the
    robot and whose columns 7-13 are the Jacobian with respect to the pose
    of the sensor. *)
Theorem globalPose_jacobian_by_storage (this : ptr) (w : World)
    (sen : SensorAbstract) (rob : RobotAbstract) (r sp g : vec) (SG_rs : mat) :
  posed w this sen rob r sp →
  rectangular SG_rs 7
    (match storage_ (pose sen) with LOCAL => 7 | REMOTE => 14 end) →
  ∃ J,
    globalPose this g SG_rs w = Done (composeFrames r sp, J) w ∧
    match storage_ (pose sen) with
    | LOCAL => rectangular J 7 7 ∧ J = jacobianWrtBase r sp
    | REMOTE => rectangular J 7 14 ∧
                columns 0 7 J = jacobianWrtBase r sp ∧
                columns 7 14 J = jacobianWrtOffset r sp
    end.
Proof.
  intros Hposed Hrect.
  pose proof (jacobianWrtBase_7x7 r sp) as Hb.
  pose proof (jacobianWrtOffset_7x7 r sp) as Ho.
  pose proof (globalPose_run this w sen rob r sp g SG_rs Hposed) as Hrun.
  destruct (storage_ (pose sen)).
  - destruct (rectangular_sizes _ _ _ Hrect) as [H1 H2]; [lia|].
    exists (jacobianWrtBase r sp). split; [|split; [exact Hb | reflexivity]].
    rewrite Hrun by lia.
    rewrite (block_write_all _ _ 7 7) by (assumption || lia). reflexivity.
  - destruct (rectangular_sizes _ _ _ Hrect) as [H1 H2]; [lia|].
    exists (hcat (jacobianWrtBase r sp) (jacobianWrtOffset r sp)).
    split; [|split; [|split]].
    + rewrite Hrun by lia. rewrite block_write_hcat by assumption. reflexivity.
    + apply (rectangular_hcat _ _ 7 7 7); assumption.
    + apply (columns_hcat_l _ _ 7 7 7); assumption.
    + apply (columns_hcat_r _ _ 7 7 7); assumption.
Qed.

(** C4.  Take a sensor with a LOCAL pose and a sensor with a REMOTE pose
    whose robots have the same pose mean and whose own pose means are the
    same.  The global poses they return are equal, and the left 7 columns
    of the 7x14 Jacobian of the REMOTE sensor are the 7x7 Jacobian of the
    LOCAL one. *)
Theorem globalPose_remote_extends_local
    (this1 this2 : ptr) (w1 w2 : World) (sen1 sen2 : SensorAbstract)
    (rob1 rob2 : RobotAbstract) (r sp g1 g2 : vec) (SG1 SG2 : mat) :
  posed w1 this1 sen1 rob1 r sp →
  posed w2 this2 sen2 rob2 r sp →
  storage_ (pose sen1) = LOCAL →
  storage_ (pose sen2) = REMOTE →
  rectangular SG1 7 7 →
  rectangular SG2 7 14 →
  ∃ senGlobalPos J1 J2,
    globalPose this1 g1 SG1 w1 = Done (senGlobalPos, J1) w1 ∧
    globalPose this2 g2 SG2 w2 = Done (senGlobalPos, J2) w2 ∧
    rectangular J1 7 7 ∧ rectangular J2 7 14 ∧
    columns 0 7 J2 = J1.
Proof.
  intros Hp1 Hp2 Hloc Hrem Hr1 Hr2.
  pose proof (jacobianWrtBase_7x7 r sp) as Hb.
  pose proof (jacobianWrtOffset_7x7 r sp) as Ho.
  destruct (rectangular_sizes _ _ _ Hr1) as [H11 H12]; [lia|].
  destruct (rectangular_sizes _ _ _ Hr2) as [H21 H22]; [lia|].
  exists (composeFrames r sp), (jacobianWrtBase r sp),
    (hcat (jacobianWrtBase r sp) (jacobianWrtOffset r sp)).
  split; [|split; [|split; [exact Hb|split]]].
  - rewrite (globalPose_run this1 w1 sen1 rob1 r sp)
      by (rewrite ?Hloc; lia || assumption).
    rewrite Hloc, (block_write_all _ _ 7 7) by (assumption || lia). reflexivity.
  - rewrite (globalPose_run this2 w2 sen2 rob2 r sp)
      by (rewrite ?Hrem; lia || assumption).
    rewrite Hrem, block_write_hcat by assumption. reflexivity.
  - apply (rectangular_hcat _ _ 7 7 7); assumption.
  - apply (columns_hcat_l _ _ 7 7 7); assumption.
Qed.

(** ** Matrices larger than the Jacobian *)





(** C7.  A call of [globalPose] that returns leaves the world as it found
    it: robots, sensors with their poses and index arrays, maps with their
    arena, all stores.  Called again on that world, with the same arguments
    or with the vector and the matrix it has just filled, it returns the
    same global pose and the same Jacobian. *)
Theorem globalPose_leaves_state (this : ptr) (w w' : World) (g : vec)
    (SG_rs : mat) (res : vec * mat) :
  globalPose this g SG_rs w = Done res w' →
  w' = w ∧
  globalPose this g SG_rs w' = Done res w' ∧
  globalPose this res.1 res.2 w' = Done res w'.
Proof.
  intros Hcall.
  destruct (globalPose_inv _ _ _ _ _ _ Hcall) as (sen & rob & r & sp & Hp & Hrows & Hcols).
  pose proof (globalPose_run this w sen rob r sp g SG_rs Hp Hrows Hcols) as Hrun.
  rewrite Hrun in Hcall. injection Hcall as <- <-.
  split; [reflexivity|]. split; [exact Hrun|].
  cbn [fst snd].
  rewrite (globalPose_run this w sen rob r sp).
  - f_equal. f_equal.
    destruct (storage_ (pose sen)).
    + apply block_write_once_again.
    + apply (block_write_again SG_rs 0 0 0 7).
  - exact Hp.
  - destruct (storage_ (pose sen)); rewrite ?size1_block_write; exact Hrows.
  - destruct (storage_ (pose sen)); rewrite ?size2_block_write; exact Hcols.
Qed.

(** ** Links to observations *)

Lemma linkToObservation_run (this op : ptr) (w : World) (sen : SensorAbstract)
    (obs : ObservationAbstract) :
  sensors w !! this = Some sen →
  obs_store w !! op = Some obs →
  linkToObservation this op w
  = Done () (set_sensors
               <[this := with_observations sen
                           (StdMap.assign (obs_id obs) op (observations sen))]> w).
Proof.
  intros Hsen Hobs.
  unfold linkToObservation, get_observation, get_sensor, put_sensor, bind, deref, ret.
  rewrite Hobs. cbn. rewrite Hsen. reflexivity.
Qed.

Lemma table_ok_assign (w : World) (table : StdMap.t ptr) (op : ptr)
    (obs : ObservationAbstract) :
  table_ok w table →
  obs_store w !! op = Some obs →
  table_ok w (StdMap.assign (obs_id obs) op table).
Proof.
  intros [Hasc Hkeyed] Hobs. split.
  - apply StdMapFacts.ascending_assign, Hasc.
  - intros k p Hin. apply StdMapFacts.elem_of_assign in Hin as [[= -> ->]|Hin].
    + exists obs. split; [exact Hobs | reflexivity].
    + apply Hkeyed, Hin.
Qed.

Lemma table_ok_empty (w : World) : table_ok w StdMap.empty.
Proof.
  split; [exact I|]. intros k p Hin. apply elem_of_nil in Hin. destruct Hin.
Qed.

(** A run of links keeps the table in order. *)
Lemma for_each_linkToObservation (this : ptr) (ops : list ptr) (w : World)
    (sen : SensorAbstract) :
  sensors w !! this = Some sen →
  table_ok w (observations sen) →
  Forall (λ op, is_Some (obs_store w !! op)) ops →
  ∃ table,
    for_each (linkToObservation this) ops w
    = Done () (set_sensors <[this := with_observations sen table]> w) ∧
    table_ok w table.
Proof.
  revert w sen. induction ops as [|op rest IH]; intros w sen Hsen Hok Hall.
  - exists (observations sen). split; [|exact Hok].
    simpl. unfold ret, set_sensors. f_equal. destruct w; simpl in *. f_equal.
    symmetry. apply list_insert_id. rewrite Hsen. f_equal. destruct sen; reflexivity.
  - apply Forall_cons in Hall as [[obs Hobs] Hrest].
    simpl. unfold bind. rewrite (linkToObservation_run this op w sen obs Hsen Hobs).
    set (sen1 := with_observations sen _).
    set (w1 := set_sensors <[this := sen1]> w).
    destruct (IH w1 sen1) as (table & Hrun & Htab).
    + apply (store_insert_lookup _ _ _ _ Hsen).
    + apply (table_ok_assign w _ op obs Hok Hobs).
    + exact Hrest.
    + exists table. split; [|exact Htab].
      rewrite Hrun. unfold w1, set_sensors. cbn.
      rewrite list_insert_insert_eq. reflexivity.
Qed.

(** C9.  A link stores the observation in the table of the sensor under
    the id of the observation, in place of whatever was under that id, and
    touches no other entry.  On a table in order, any run of links leaves
    the table in order: at most one observation under an id, every one
    under its own id. *)
Theorem linkToObservation_keyed_by_id (this : ptr) (w : World)
    (sen : SensorAbstract) (op : ptr) (obs : ObservationAbstract)
    (ops : list ptr) :
  sensors w !! this = Some sen →
  table_ok w (observations sen) →
  obs_store w !! op = Some obs →
  Forall (λ op', is_Some (obs_store w !! op')) ops →
  (∃ table,
     linkToObservation this op w
     = Done () (set_sensors <[this := with_observations sen table]> w) ∧
     StdMap.find (obs_id obs) table = Some op ∧
     (∀ k, k ≠ obs_id obs →
        StdMap.find k table = StdMap.find k (observations sen)) ∧
     (∀ k p, (k, p) ∈ table → (k, p) = (obs_id obs, op) ∨ (k, p) ∈ observations sen))
  ∧
  (∃ table,
     for_each (linkToObservation this) ops w
     = Done () (set_sensors <[this := with_observations sen table]> w) ∧
     NoDup (StdMap.keys table) ∧
     ∀ k p, (k, p) ∈ table →
       StdMap.find k table = Some p ∧
       ∃ obs', obs_store w !! p = Some obs' ∧ obs_id obs' = k).
Proof.
  intros Hsen Hok Hobs Hall. split.
  - exists (StdMap.assign (obs_id obs) op (observations sen)).
    split; [apply (linkToObservation_run this op w sen obs Hsen Hobs)|].
    split; [apply StdMapFacts.find_assign_eq|].
    split.
    + intros k Hk. apply StdMapFacts.find_assign_ne, Hk.
    + intros k p. apply StdMapFacts.elem_of_assign.
  - destruct (for_each_linkToObservation this ops w sen Hsen Hok Hall)
      as (table & Hrun & Hasc & Hkeyed).
    exists table. split; [exact Hrun|].
    split; [apply StdMapFacts.ascending_NoDup, Hasc|].
    intros k p Hin. split; [|apply Hkeyed, Hin].
    apply StdMapFacts.find_elem_of; assumption.
Qed.

(** ** The diagnostic dump *)

Lemma print_sensor_run (w : World) (s : list item) (sen : SensorAbstract)
    (rob : RobotAbstract) :
  robot sen ≫= (λ rp, robots w !! rp) = Some rob →
  print_sensor w s sen = Some (s ++ sensor_dump sen rob).
Proof.
  intros Hrob. unfold print_sensor, sensor_dump.
  destruct (robot sen) as [rp|]; [|discriminate]. simpl in Hrob.
  simpl. rewrite Hrob. simpl. f_equal.
  destruct (0 <? String.length (name_ (sen_obj sen)));
    destruct (decide (storage_ (pose sen) = REMOTE));
    rewrite <- ?app_assoc; simpl; rewrite ?app_nil_r; reflexivity.
Qed.

(** C8.  The dump of a sensor mounted on a robot is appended to the
    stream; it holds the category and the id of the sensor, its pose and
    the id of the robot, and it holds an index array exactly when the pose
    is REMOTE, in which case the array is [ia_globalPose]. *)
Theorem print_sensor_fields (w : World) (s : list item) (sen : SensorAbstract)
    (rob : RobotAbstract) :
  robot sen ≫= (λ rp, robots w !! rp) = Some rob →
  ∃ dump,
    print_sensor w s sen = Some (s ++ dump) ∧
    Str (categoryName_ (sen_obj sen)) ∈ dump ∧
    Num (id_ (sen_obj sen)) ∈ dump ∧
    ItGaussian (pose sen) ∈ dump ∧
    Num (id_ (rob_obj rob)) ∈ dump ∧
    (ItIndArray (ia_globalPose sen) ∈ dump ↔ storage_ (pose sen) = REMOTE) ∧
    (∀ a, ItIndArray a ∈ dump → a = ia_globalPose sen).
Proof.
  intros Hrob. exists (sensor_dump sen rob).
  split; [apply print_sensor_run, Hrob|].
  unfold sensor_dump.
  destruct (0 <? String.length (name_ (sen_obj sen)));
    destruct (decide (storage_ (pose sen) = REMOTE)) as [Hrem|Hloc];
    rewrite ?app_nil_r; simpl;
    repeat split; intros;
    repeat match goal with
           | H : _ ∈ _ :: _ |- _ => apply elem_of_cons in H as [H|H]
           | H : _ ∈ [] |- _ => apply elem_of_nil in H; destruct H
           | H : ItIndArray _ = _ |- _ => inversion H; clear H; subst
           end;
    try congruence; try assumption;
    rewrite ?elem_of_cons; tauto.
Qed.

(** ** Constructors *)

(** C10.  The three constructors that take the pose as a local value (none,
    a mean, a Gaussian) leave the sensor with a LOCAL state of no cell,
    tied to no arena, with no robot, and with an [ia_globalPose] of size
    0. *)
Theorem local_constructors_reserve_nothing (v : vec) (g : Gaussian) :
  Forall (λ s : SensorAbstract,
            storage_ (state (sen_obj s)) = LOCAL ∧
            g_size (state (sen_obj s)) = 0 ∧
            g_arena (state (sen_obj s)) = None ∧
            robot s = None ∧
            ia_globalPose s = [] ∧
            length (ia_globalPose s) = 0)
    [SensorAbstract_empty; SensorAbstract_vec7 v; SensorAbstract_Gaussian g].
Proof. repeat constructor. Qed.

#[local] Arguments ia_compose : simpl never.
#[local] Arguments ia_range : simpl never.
#[local] Arguments ia_union : simpl never.

(** With [inFilter] set, the selectable constructor takes a slice of 7
    cells out of the map of the robot for the pose of the sensor, and
    [ia_globalPose] is the union of the indices of the two poses. *)
Lemma SensorAbstract_rob_inFilter (rob : RobotAbstract) (w : World) (mp : ptr)
    (m : MapAbstract) (start : nat) :
  slamMap rob = Some mp →
  maps w !! mp = Some m →
  find_free 7 (used_states m) 0 = Some start →
  ∃ s m',
    SensorAbstract_rob rob true w = Done s (set_maps <[mp := m']> w) ∧
    pose s = mkGaussian REMOTE [] (ia_range start 7) (Some mp) ∧
    reserved_slice (used_states m) (used_states m') (ia_ (pose s)) ∧
    ia_globalPose s = ia_union (ia_ (rob_pose rob)) (ia_ (pose s)).
Proof.
  intros Hmp Hm Hfree.
  unfold SensorAbstract_rob, MapObject_map, reserveStates, get_map, put_map,
    bind, deref, ret.
  assert (Hview : ia_compose (ia_range start 7) (ia_range 0 7) = ia_range start 7)
    by exact (ia_compose_all (ia_range start 7)).
  rewrite Hmp. cbn. rewrite Hm. cbn. rewrite Hfree. cbn.
  unfold Gaussian_view. cbn. rewrite Hview.
  eexists _, _. split; [reflexivity|]. cbn.
  split; [reflexivity|]. split; [|reflexivity].
  apply (find_free_reserved 7 _ _ Hfree).
Qed.

(** With [inFilter] cleared, the constructor does not look at the robot:
    [ia_globalPose] is the index array of the local pose of the sensor. *)
Lemma SensorAbstract_rob_not_inFilter (rob : RobotAbstract) (w : World) :
  ∃ s,
    SensorAbstract_rob rob false w = Done s w ∧
    storage_ (pose s) = LOCAL ∧
    storage_ (state (sen_obj s)) = LOCAL ∧
    ia_globalPose s = ia_ (pose s) ∧
    ia_globalPose s = local_ia 7.
Proof. eexists. repeat split. Qed.

End Properties.

(** * Further properties of the sensor *)

(** ** More on [std::map] *)

Module StdMapOrder.
Import StdMap.

Lemma assign_assign {V} (k : nat) (v v' : V) (m : t V) :
  assign k v (assign k v' m) = assign k v m.
Proof.
  induction m as [|[k' u] rest IH]; simpl.
  - rewrite Nat.ltb_irrefl, Nat.eqb_refl. reflexivity.
  - destruct (k <? k') eqn:Hlt; simpl.
    + rewrite Nat.ltb_irrefl, Nat.eqb_refl. reflexivity.
    + destruct (k =? k') eqn:Heq; simpl.
      * rewrite Nat.ltb_irrefl, Nat.eqb_refl. reflexivity.
      * rewrite Hlt, Heq, IH. reflexivity.
Qed.

Lemma assign_comm {V} (k1 k2 : nat) (v1 v2 : V) (m : t V) :
  k1 ≠ k2 →
  assign k1 v1 (assign k2 v2 m) = assign k2 v2 (assign k1 v1 m).
Proof.
  intros Hne. induction m as [|[k' u] rest IH]; simpl.
  - destruct (Nat.ltb_spec k1 k2), (Nat.ltb_spec k2 k1),
      (Nat.eqb_spec k1 k2), (Nat.eqb_spec k2 k1);
      try reflexivity; lia.
  - destruct (Nat.ltb_spec k2 k'), (Nat.ltb_spec k1 k'),
      (Nat.eqb_spec k2 k'), (Nat.eqb_spec k1 k'); simpl;
      destruct (Nat.ltb_spec k1 k2), (Nat.ltb_spec k2 k1),
        (Nat.eqb_spec k1 k2), (Nat.eqb_spec k2 k1);
      destruct (Nat.ltb_spec k1 k'), (Nat.ltb_spec k2 k'),
        (Nat.eqb_spec k1 k'), (Nat.eqb_spec k2 k');
      try lia; try reflexivity; try (rewrite IH; reflexivity).
Qed.

Lemma length_assign_new {V} (k : nat) (v : V) (m : t V) :
  k ∉ keys m → length (assign k v m) = S (length m).
Proof.
  unfold keys. induction m as [|[k' u] rest IH]; simpl; [reflexivity|].
  rewrite not_elem_of_cons. intros [Hne Hrest].
  destruct (k <? k'); [reflexivity|].
  destruct (Nat.eqb_spec k k') as [->|_]; [congruence|].
  simpl. rewrite IH by exact Hrest. reflexivity.
Qed.

Lemma find_None_keys {V} (k : nat) (m : t V) :
  k ∉ keys m → find k m = None.
Proof.
  unfold keys. induction m as [|[k' u] rest IH]; simpl; [reflexivity|].
  rewrite not_elem_of_cons. intros [Hne Hrest].
  destruct (Nat.eqb_spec k k') as [->|_]; [congruence|]. apply IH, Hrest.
Qed.

End StdMapOrder.

Section Further.

Context `{JB : Jblas} `{QT : !QuatTools}.
Variable size_lmkAHP : nat.

#[local] Arguments newLandmark : simpl never.
#[local] Arguments addObservations : simpl never.
#[local] Arguments observeKnownLmks : simpl never.
#[local] Arguments discoverNewLmks : simpl never.
#[local] Arguments processRaw : simpl never.
#[local] Arguments mat_sized : simpl never.
#[local] Arguments ia_compose : simpl never.
#[local] Arguments ia_range : simpl never.
#[local] Arguments ia_union : simpl never.

(** ** A sensor and its robot *)

Lemma globalPose_no_robot (this : ptr) (w : World) (sen : SensorAbstract)
    (g : vec) (SG_rs : mat) :
  sensors w !! this = Some sen →
  robot sen ≫= (λ rp, robots w !! rp) = None →
  globalPose this g SG_rs w = Raise NullPointer.
Proof.
  intros Hsen Hrob.
  unfold globalPose, get_sensor, get_robot, bind at 1 2 3, deref, ret, raise.
  rewrite Hsen. cbn.
  destruct (robot sen) as [rp|]; [|reflexivity]. cbn in Hrob |- *.
  rewrite Hrob. reflexivity.
Qed.

Lemma discoverNewLmks_no_map (this : ptr) (w : World) (sen : SensorAbstract) :
  sensors w !! this = Some sen →
  map_of w sen = None →
  discoverNewLmks size_lmkAHP this w = Raise NullPointer.
Proof.
  intros Hsen Hmap.
  unfold discoverNewLmks, get_sensor, get_robot, get_map,
    bind at 1 2 3 4 5, deref, ret, raise.
  unfold map_of in Hmap. rewrite Hsen. cbn.
  destruct (robot sen) as [rp|]; [|reflexivity]. cbn in Hmap |- *.
  destruct (robots w !! rp) as [rob|]; [|reflexivity]. cbn in Hmap |- *.
  destruct (slamMap rob) as [mp|]; [|reflexivity]. cbn in Hmap |- *.
  rewrite Hmap. reflexivity.
Qed.

Lemma map_of_linked (w : World) (this : ptr) (sen : SensorAbstract)
    (m : MapAbstract) :
  sensors w !! this = Some sen →
  Forall (λ e : nat * ptr, is_Some (obs_store w !! e.2)) (observations sen) →
  map_of w sen = Some m →
  ∃ rob mp, linked w this sen rob mp m.
Proof.
  intros Hsen Hobs Hmap. unfold map_of in Hmap.
  destruct (robot sen) as [rp|] eqn:Hrp; [|discriminate]. cbn in Hmap.
  destruct (robots w !! rp) as [rob|] eqn:Hrob; [|discriminate]. cbn in Hmap.
  destruct (slamMap rob) as [mp|] eqn:Hmp; [|discriminate]. cbn in Hmap.
  exists rob, mp. constructor; try assumption. rewrite Hrp. exact Hrob.
Qed.

Lemma discoverNewLmks_returns (this : ptr) (w : World) (sen : SensorAbstract)
    (rob : RobotAbstract) (mp : ptr) (m : MapAbstract) :
  linked w this sen rob mp m →
  ∃ w', discoverNewLmks size_lmkAHP this w = Done () w'.
Proof.
  intros Hl. destruct (unusedStates m size_lmkAHP) eqn:Hroom.
  - apply unusedStates_true in Hroom as [start Hfree].
    destruct (discoverNewLmks_add size_lmkAHP this w sen rob mp m start Hl Hfree)
      as (w' & Hrun & _).
    exists w'. exact Hrun.
  - exists w. apply (discoverNewLmks_skip size_lmkAHP this w sen rob mp m Hl Hroom).
Qed.

(** X1.  The selectable constructor is handed the robot and still leaves
    the sensor without one.  Put in the store as built, with either value
    of the flag, the sensor cannot give its global pose, cannot run a
    cycle and cannot be dumped: each ends on the empty robot pointer. *)
Theorem SensorAbstract_rob_links_no_robot (rob : RobotAbstract) (inFilter : bool)
    (w0 w1 w : World) (s : SensorAbstract) (this : ptr)
    (g : vec) (SG_rs : mat) (out : list item) :
  SensorAbstract_rob rob inFilter w0 = Done s w1 →
  sensors w !! this = Some s →
  robot s = None ∧ observations s = [] ∧
  globalPose this g SG_rs w = Raise NullPointer ∧
  processRaw size_lmkAHP this w = Raise NullPointer ∧
  print_sensor w out s = None.
Proof.
  intros Hbuilt Hsen.
  assert (Hfresh : robot s = None ∧ observations s = []).
  { unfold SensorAbstract_rob, bind, ret in Hbuilt.
    destruct inFilter.
    - destruct (bind (deref (slamMap rob)) (λ mp, MapObject_map mp 7) w0)
        as [base w0'|] eqn:Hbase; [|unfold bind in Hbase; rewrite Hbase in Hbuilt; discriminate].
      unfold bind in Hbase. rewrite Hbase in Hbuilt.
      injection Hbuilt as <- _. split; reflexivity.
    - cbn in Hbuilt. injection Hbuilt as <- _. split; reflexivity. }
  destruct Hfresh as [Hrobot Htable].
  split; [exact Hrobot|]. split; [exact Htable|]. split; [|split].
  - apply (globalPose_no_robot this w s); [exact Hsen|]. rewrite Hrobot. reflexivity.
  - unfold processRaw, bind.
    rewrite (observeKnownLmks_run this w s Hsen) by (rewrite Htable; constructor).
    apply (discoverNewLmks_no_map this _ s); [exact Hsen|].
    unfold map_of. rewrite Hrobot. reflexivity.
  - unfold print_sensor. rewrite Hrobot. reflexivity.
Qed.

(** The sensor [sen] on another robot. *)
Lemma linkToRobot_run (this : ptr) (w : World) (sen : SensorAbstract)
    (r : option ptr) :
  sensors w !! this = Some sen →
  linkToRobot this r w
  = Done () (set_sensors
               <[this := mkSensorAbstract (sen_obj sen) r (observations sen)
                           (pose sen) (ia_globalPose sen)]> w).
Proof.
  intros Hsen. unfold linkToRobot, get_sensor, put_sensor, bind, deref, ret.
  rewrite Hsen. reflexivity.
Qed.

(** X2.  [linkToRobot] changes the robot of the sensor and nothing else:
    identity, table of observations, pose and [ia_globalPose] stay as they
    were built, and the rest of the world is untouched.  From then on the
    dump of the sensor shows the id of that robot, and a later link
    replaces the earlier one. *)
Theorem linkToRobot_sets_robot_only (this : ptr) (w : World)
    (sen : SensorAbstract) (rp : ptr) (rob : RobotAbstract) (r2 : option ptr)
    (out : list item) :
  sensors w !! this = Some sen →
  robots w !! rp = Some rob →
  ∃ sen',
    linkToRobot this (Some rp) w = Done () (set_sensors <[this := sen']> w) ∧
    robot sen' = Some rp ∧
    sen_obj sen' = sen_obj sen ∧ observations sen' = observations sen ∧
    pose sen' = pose sen ∧ ia_globalPose sen' = ia_globalPose sen ∧
    print_sensor (set_sensors <[this := sen']> w) out sen'
      = Some (out ++ sensor_dump sen' rob) ∧
    Num (id_ (rob_obj rob)) ∈ sensor_dump sen' rob ∧
    (linkToRobot this (Some rp) ;;; linkToRobot this r2) w = linkToRobot this r2 w.
Proof.
  intros Hsen Hrob.
  eexists. split; [apply (linkToRobot_run this w sen (Some rp) Hsen)|].
  repeat (split; [reflexivity|]).
  split; [|split].
  - apply print_sensor_run. cbn. exact Hrob.
  - unfold sensor_dump. rewrite !elem_of_app. right. right. left.
    cbn. rewrite !elem_of_cons. tauto.
  - unfold bind. rewrite (linkToRobot_run this w sen (Some rp) Hsen).
    set (sen1 := mkSensorAbstract _ (Some rp) _ _ _).
    assert (Hsen1 : sensors (set_sensors <[this := sen1]> w) !! this = Some sen1)
      by apply (store_insert_lookup _ _ _ _ Hsen).
    rewrite (linkToRobot_run this _ sen1 r2 Hsen1).
    rewrite (linkToRobot_run this w sen r2 Hsen).
    unfold set_sensors. cbn. rewrite list_insert_insert_eq. reflexivity.
Qed.

(** ** Where the sensor stops *)

(** X3.  The dump of a sensor fails exactly when the sensor has no robot
    to show, whatever was sent to the stream before; when it does not
    fail, what was sent before is still there, in front of the dump. *)
Theorem print_sensor_fails_iff_no_robot (w : World) (out : list item)
    (sen : SensorAbstract) :
  (print_sensor w out sen = None ↔ robot sen ≫= (λ rp, robots w !! rp) = None) ∧
  (∀ res, print_sensor w out sen = Some res →
     take (length out) res = out ∧
     print_sensor w [] sen = Some (drop (length out) res)).
Proof.
  destruct (robot sen ≫= (λ rp, robots w !! rp)) as [rob|] eqn:Hrob.
  - rewrite (print_sensor_run w out sen rob Hrob).
    rewrite (print_sensor_run w [] sen rob Hrob).
    split; [split; discriminate|].
    intros res [= <-].
    rewrite take_app_length, drop_app_length. split; reflexivity.
  - assert (Hnone : ∀ o, print_sensor w o sen = None).
    { intros o. unfold print_sensor.
      destruct (robot sen) as [rp|]; [|reflexivity]. cbn in Hrob |- *.
      rewrite Hrob. reflexivity. }
    rewrite Hnone. split; [tauto|]. intros res [=].
Qed.

(** X4.  A cycle of a sensor whose observations are all there returns
    exactly when the chain sensor - robot - map is complete.  With a link
    missing (no robot, a robot without map) the cycle ends on the empty
    pointer, also when the map would have had no room for a landmark. *)
Theorem processRaw_returns_iff_map (this : ptr) (w : World) (sen : SensorAbstract) :
  sensors w !! this = Some sen →
  Forall (λ e : nat * ptr, is_Some (obs_store w !! e.2)) (observations sen) →
  match map_of w sen with
  | Some _ => ∃ w', processRaw size_lmkAHP this w = Done () w'
  | None => processRaw size_lmkAHP this w = Raise NullPointer
  end.
Proof.
  intros Hsen Hobs. unfold processRaw, bind.
  rewrite (observeKnownLmks_run this w sen Hsen Hobs).
  destruct (map_of w sen) as [m|] eqn:Hmap.
  - destruct (map_of_linked w this sen m Hsen Hobs Hmap) as (rob & mp & Hl).
    apply (discoverNewLmks_returns this _ sen rob mp m).
    apply linked_set_cout, Hl.
  - apply (discoverNewLmks_no_map this _ sen); [exact Hsen | exact Hmap].
Qed.

(** ** Observations, linked and visited *)

(** X5.  The table of observations does not remember how it was filled:
    linking an observation twice is linking it once, two observations with
    different ids can be linked in either order, and of two observations
    with the same id the one linked last is the one kept. *)
Theorem linkToObservation_order_free (this : ptr) (w : World)
    (sen : SensorAbstract) (a b : ptr) (oa ob : ObservationAbstract) :
  sensors w !! this = Some sen →
  obs_store w !! a = Some oa →
  obs_store w !! b = Some ob →
  (linkToObservation this a ;;; linkToObservation this a) w
    = linkToObservation this a w ∧
  (obs_id oa ≠ obs_id ob →
     (linkToObservation this a ;;; linkToObservation this b) w
     = (linkToObservation this b ;;; linkToObservation this a) w) ∧
  (obs_id oa = obs_id ob →
     (linkToObservation this a ;;; linkToObservation this b) w
     = linkToObservation this b w).
Proof.
  intros Hsen Ha Hb.
  assert (Hstep : ∀ p o q o',
            obs_store w !! p = Some o → obs_store w !! q = Some o' →
            (linkToObservation this p ;;; linkToObservation this q) w
            = Done () (set_sensors
                         <[this := with_observations sen
                            (StdMap.assign (obs_id o') q
                               (StdMap.assign (obs_id o) p (observations sen)))]> w)).
  { intros p o q o' Hp Hq. unfold bind.
    rewrite (linkToObservation_run this p w sen o Hsen Hp).
    set (sen1 := with_observations sen _).
    assert (Hsen1 : sensors (set_sensors <[this := sen1]> w) !! this = Some sen1)
      by apply (store_insert_lookup _ _ _ _ Hsen).
    rewrite (linkToObservation_run this q _ sen1 o' Hsen1 Hq).
    unfold set_sensors, with_observations. cbn.
    rewrite list_insert_insert_eq. reflexivity. }
  split; [|split].
  - rewrite (Hstep a oa a oa Ha Ha), StdMapOrder.assign_assign.
    symmetry. apply (linkToObservation_run this a w sen oa Hsen Ha).
  - intros Hne. rewrite (Hstep a oa b ob Ha Hb), (Hstep b ob a oa Hb Ha).
    rewrite (StdMapOrder.assign_comm (obs_id ob) (obs_id oa)) by congruence.
    reflexivity.
  - intros Heq. rewrite (Hstep a oa b ob Ha Hb), Heq, StdMapOrder.assign_assign.
    symmetry. apply (linkToObservation_run this b w sen ob Hsen Hb).
Qed.

Lemma link_all_cons (w : World) (op : ptr) (rest : list ptr)
    (table : StdMap.t ptr) :
  link_all w (op :: rest) table
  = link_all w rest
      match obs_store w !! op with
      | Some obs => StdMap.assign (obs_id obs) op table
      | None => table
      end.
Proof. reflexivity. Qed.

Lemma for_each_link_all (this : ptr) (ops : list ptr) (w : World)
    (sen : SensorAbstract) :
  sensors w !! this = Some sen →
  Forall (λ op, is_Some (obs_store w !! op)) ops →
  for_each (linkToObservation this) ops w
  = Done () (set_sensors
               <[this := with_observations sen
                           (link_all w ops (observations sen))]> w).
Proof.
  revert w sen. induction ops as [|op rest IH]; intros w sen Hsen Hall.
  - simpl. unfold ret, set_sensors. f_equal. destruct w; simpl in *. f_equal.
    symmetry. apply list_insert_id. rewrite Hsen. f_equal. destruct sen; reflexivity.
  - apply Forall_cons in Hall as [[obs Hobs] Hrest].
    simpl. unfold bind. rewrite (linkToObservation_run this op w sen obs Hsen Hobs).
    set (sen1 := with_observations sen _).
    assert (Hsen1 : sensors (set_sensors <[this := sen1]> w) !! this = Some sen1)
      by apply (store_insert_lookup _ _ _ _ Hsen).
    rewrite (IH _ sen1 Hsen1 Hrest).
    rewrite ?link_all_cons, Hobs.
    change (link_all (set_sensors <[this := sen1]> w) rest) with (link_all w rest).
    unfold set_sensors, with_observations. cbn.
    rewrite list_insert_insert_eq. reflexivity.
Qed.

Lemma table_ok_link_all (w : World) (ops : list ptr) (table : StdMap.t ptr) :
  table_ok w table → table_ok w (link_all w ops table).
Proof.
  revert table. induction ops as [|op rest IH]; intros table Hok; [exact Hok|].
  rewrite link_all_cons.
  destruct (obs_store w !! op) as [obs|] eqn:Hobs; apply IH; [|exact Hok].
  apply (table_ok_assign w table op obs Hok Hobs).
Qed.

Lemma keys_link_all (w : World) (ops : list ptr) (table : StdMap.t ptr) (k : nat) :
  k ∈ StdMap.keys (link_all w ops table) ↔
  k ∈ StdMap.keys table ∨
  ∃ op obs, op ∈ ops ∧ obs_store w !! op = Some obs ∧ obs_id obs = k.
Proof.
  revert table. induction ops as [|op rest IH]; intros table.
  - simpl. split; [tauto|]. intros [H|(op & obs & Hin & _)]; [exact H|].
    apply elem_of_nil in Hin. destruct Hin.
  - rewrite link_all_cons, IH.
    destruct (obs_store w !! op) as [obs|] eqn:Hobs.
    + rewrite StdMapFacts.elem_of_keys_assign. split.
      * intros [[->|H]|(op' & obs' & Hin & Hl & Hid)].
        -- right. exists op, obs. split; [left|]. split; [exact Hobs | reflexivity].
        -- left. exact H.
        -- right. exists op', obs'. split; [right; exact Hin|]. tauto.
      * intros [H|(op' & obs' & Hin & Hl & Hid)]; [tauto|].
        apply elem_of_cons in Hin as [->|Hin].
        -- left. left. rewrite Hobs in Hl. injection Hl as <-. congruence.
        -- right. exists op', obs'. tauto.
    + split.
      * intros [H|(op' & obs' & Hin & Hl & Hid)]; [tauto|].
        right. exists op', obs'. split; [right; exact Hin|]. tauto.
      * intros [H|(op' & obs' & Hin & Hl & Hid)]; [tauto|].
        apply elem_of_cons in Hin as [->|Hin]; [congruence|].
        right. exists op', obs'. tauto.
Qed.

Lemma explore_line_table_ok (w : World) (table : StdMap.t ptr) :
  (∀ k p, (k, p) ∈ table → ∃ obs, obs_store w !! p = Some obs ∧ obs_id obs = k) →
  concat (explore_line w <$> table) = concat (explore_id <$> StdMap.keys table).
Proof.
  unfold StdMap.keys. induction table as [|[k p] rest IH]; intros Hkeyed.
  - reflexivity.
  - rewrite !fmap_cons. cbn [concat fst].
    rewrite IH by (intros k' p' Hin; apply Hkeyed; right; exact Hin).
    destruct (Hkeyed k p) as (obs & Hobs & Hid); [left|].
    unfold explore_line at 1. cbn [snd]. rewrite Hobs, Hid. reflexivity.
Qed.

Lemma table_ok_valid (w : World) (table : StdMap.t ptr) :
  table_ok w table →
  Forall (λ e : nat * ptr, is_Some (obs_store w !! e.2)) table.
Proof.
  intros [_ Hkeyed]. apply Forall_forall. intros [k p] Hin.
  destruct (Hkeyed k p Hin) as (obs & Hobs & _). exists obs. exact Hobs.
Qed.

(** X6.  Whatever the order in which observations were linked, the visit
    of the known landmarks goes through them by ascending id, each id
    once: it prints one line for every id that was in the table or came
    with a link, and no other line. *)
Theorem observeKnownLmks_after_links (this : ptr) (w : World)
    (sen : SensorAbstract) (ops : list ptr) :
  sensors w !! this = Some sen →
  table_ok w (observations sen) →
  Forall (λ op, is_Some (obs_store w !! op)) ops →
  ∃ w' ids,
    (for_each (linkToObservation this) ops ;;; observeKnownLmks this) w
      = Done () w' ∧
    cout w' = cout w ++ concat (explore_id <$> ids) ∧
    StdMap.ascending ids ∧
    ∀ k, k ∈ ids ↔
         k ∈ StdMap.keys (observations sen) ∨
         ∃ op obs, op ∈ ops ∧ obs_store w !! op = Some obs ∧ obs_id obs = k.
Proof.
  intros Hsen Hok Hall.
  set (table := link_all w ops (observations sen)).
  pose proof (table_ok_link_all w ops _ Hok) as Htab. fold table in Htab.
  set (w1 := set_sensors <[this := with_observations sen table]> w).
  assert (Hsen1 : sensors w1 !! this = Some (with_observations sen table))
    by apply (store_insert_lookup _ _ _ _ Hsen).
  eexists _, (StdMap.keys table). split; [|split; [|split]].
  - unfold bind. rewrite (for_each_link_all this ops w sen Hsen Hall).
    fold table. fold w1.
    apply (observeKnownLmks_run this w1 _ Hsen1).
    apply (table_ok_valid w table Htab).
  - cbn. f_equal. apply (explore_line_table_ok w table). apply Htab.
  - apply Htab.
  - intros k. apply keys_link_all.
Qed.

(** ** The selectable constructor and the map *)

(** X7.  Only with [inFilter] set does the selectable constructor reach for
    the map of the robot.  With the flag cleared it returns for any robot,
    with or without map, and leaves the world as it is.  With the flag set
    it ends on the empty pointer for a robot without map, on the exhausted
    arena when the map has no 7 free cells in a row, and returns
    otherwise. *)
Theorem SensorAbstract_rob_reaches_map_only_inFilter (rob : RobotAbstract)
    (w : World) :
  (∃ s, SensorAbstract_rob rob false w = Done s w) ∧
  match slamMap rob ≫= (λ mp, maps w !! mp) with
  | None => SensorAbstract_rob rob true w = Raise NullPointer
  | Some m =>
      if unusedStates m 7
      then ∃ s w', SensorAbstract_rob rob true w = Done s w'
      else SensorAbstract_rob rob true w = Raise ArenaExhausted
  end.
Proof.
  split; [eexists; reflexivity|].
  unfold SensorAbstract_rob, MapObject_map, reserveStates, get_map, put_map,
    bind, deref, ret, raise.
  destruct (slamMap rob) as [mp|]; [|reflexivity]. cbn.
  destruct (maps w !! mp) as [m|]; [|reflexivity]. cbn.
  destruct (unusedStates m 7) eqn:Hroom.
  - apply unusedStates_true in Hroom as [start Hfree]. rewrite Hfree.
    eexists _, _. reflexivity.
  - apply unusedStates_false in Hroom. rewrite Hroom. reflexivity.
Qed.

(** X8.  With [inFilter] set and room in the map, the pose of the sensor is
    the whole state the sensor has reserved, a run of 7 cells that were
    free; [ia_globalPose] holds the indices of the pose of the robot and
    these 7 cells, in ascending order, and nothing else.  Of the world only
    the cells in use of that map have changed. *)
Theorem SensorAbstract_rob_inFilter_indices (rob : RobotAbstract) (w : World)
    (mp : ptr) (m : MapAbstract) (start : nat) :
  slamMap rob = Some mp →
  maps w !! mp = Some m →
  find_free 7 (used_states m) 0 = Some start →
  ∃ s used',
    SensorAbstract_rob rob true w
      = Done s (set_maps
                  <[mp := mkMapAbstract (map_x m) used' (landmarkIds m)
                            (map_landmarks m)]> w) ∧
    reserved_slice (used_states m) used' (ia_range start 7) ∧
    ia_ (pose s) = ia_range start 7 ∧
    state (sen_obj s) = pose s ∧
    StdMap.ascending (ia_globalPose s) ∧
    ∀ k, k ∈ ia_globalPose s ↔
         k ∈ ia_ (rob_pose rob) ∨ start ≤ k < start + 7.
Proof.
  intros Hmp Hm Hfree.
  assert (Hview : ia_compose (ia_range start 7) (ia_range 0 7) = ia_range start 7)
    by exact (ia_compose_all (ia_range start 7)).
  unfold SensorAbstract_rob, MapObject_map, reserveStates, get_map, put_map,
    bind, deref, ret.
  rewrite Hmp. cbn. rewrite Hm. cbn. rewrite Hfree. cbn.
  unfold Gaussian_view. cbn. rewrite Hview.
  eexists _, _. split; [reflexivity|]. cbn.
  split; [apply (find_free_reserved 7 _ _ Hfree)|].
  split; [reflexivity|]. split; [reflexivity|].
  split; [apply ascending_ia_union|].
  intros k. rewrite elem_of_ia_union. unfold ia_range. rewrite elem_of_seq.
  reflexivity.
Qed.

(** ** The matrix handed to [globalPose] *)




(** ** Cycle after cycle *)

Lemma pool_covers_new (m : MapAbstract) (start : nat) (lp : ptr) :
  pool_covers m →
  pool_covers (map_with_landmark size_lmkAHP m start lp) ∧
  length (map_landmarks (map_with_landmark size_lmkAHP m start lp))
    = S (length (map_landmarks m)) ∧
  ∀ k p, StdMap.find k (map_landmarks m) = Some p →
         StdMap.find k (map_landmarks (map_with_landmark size_lmkAHP m start lp))
         = Some p.
Proof.
  unfold pool_covers. intros Hcov. cbn.
  assert (Hnew : S (lastId (landmarkIds m)) ∉ StdMap.keys (map_landmarks m)).
  { intros Hin. rewrite Forall_forall in Hcov. specialize (Hcov _ Hin). lia. }
  split; [|split].
  - apply Forall_forall. intros k Hk.
    apply StdMapFacts.elem_of_keys_assign in Hk as [->|Hk]; [lia|].
    rewrite Forall_forall in Hcov. specialize (Hcov _ Hk). lia.
  - apply StdMapOrder.length_assign_new, Hnew.
  - intros k p Hfind. rewrite StdMapFacts.find_assign_ne; [exact Hfind|].
    intros ->. apply Hnew. apply StdMapFacts.elem_of_find in Hfind.
    unfold StdMap.keys. apply list_elem_of_fmap. exists (S (lastId (landmarkIds m)), p).
    split; [reflexivity | exact Hfind].
Qed.

(** X11.  [newLandmark] never takes the place of a landmark the map
    already knows: when no landmark of the table carries an id the pool has
    still to hand out, the table grows by one entry, every earlier entry is
    found as before, and the same holds of the new table and the pool.
    Sensors, robots, observations and the output are not touched: the
    sensor learns of the landmark only through [addObservations]. *)
Theorem newLandmark_keeps_ids_apart (this mp : ptr) (w : World)
    (m : MapAbstract) (start : nat) :
  maps w !! mp = Some m →
  pool_covers m →
  find_free size_lmkAHP (used_states m) 0 = Some start →
  ∃ w' m',
    newLandmark size_lmkAHP this (Some mp) w = Done (length (landmarks w)) w' ∧
    maps w' !! mp = Some m' ∧
    pool_covers m' ∧
    length (map_landmarks m') = S (length (map_landmarks m)) ∧
    (∀ k p, StdMap.find k (map_landmarks m) = Some p →
            StdMap.find k (map_landmarks m') = Some p) ∧
    sensors w' = sensors w ∧ robots w' = robots w ∧
    obs_store w' = obs_store w ∧ cout w' = cout w.
Proof.
  intros Hm Hcov Hfree.
  destruct (pool_covers_new m start (length (landmarks w)) Hcov) as (H1 & H2 & H3).
  eexists _, _. split; [apply (newLandmark_run size_lmkAHP this mp w m start Hm Hfree)|].
  cbn [maps sensors robots obs_store cout].
  split; [apply (store_insert_lookup _ _ _ _ Hm)|].
  split; [exact H1|]. split; [exact H2|]. split; [exact H3|].
  repeat split.
Qed.

(** One cycle keeps the links of the sensor and the pool of the map. *)
Lemma processRaw_keeps_links (this : ptr) (w : World) (sen : SensorAbstract)
    (rob : RobotAbstract) (mp : ptr) (m : MapAbstract) :
  linked w this sen rob mp m →
  pool_covers m →
  ∃ w' sen' m' new,
    processRaw size_lmkAHP this w = Done () w' ∧
    linked w' this sen' rob mp m' ∧
    pool_covers m' ∧
    landmarks w' = landmarks w ++ new ∧
    length new ≤ 1 ∧
    length (map_landmarks m') = length (map_landmarks m) + length new.
Proof.
  intros Hl Hcov.
  pose proof (observeKnownLmks_run this w sen (linked_sensor _ _ _ _ _ _ Hl)
                (linked_obs _ _ _ _ _ _ Hl)) as Hobs.
  set (w1 := set_cout (λ s, s ++ concat (explore_line w <$> observations sen)) w)
    in Hobs.
  assert (Hl1 : linked w1 this sen rob mp m) by (apply linked_set_cout, Hl).
  unfold processRaw, bind. rewrite Hobs.
  destruct (unusedStates m size_lmkAHP) eqn:Hroom.
  - apply unusedStates_true in Hroom as [start Hfree].
    destruct (discoverNewLmks_add size_lmkAHP this w1 sen rob mp m start Hl1 Hfree)
      as (w' & Hrun & Hadded).
    destruct (pool_covers_new m start (length (landmarks w)) Hcov) as (H1 & H2 & _).
    pose proof (linked_mounted_on _ _ _ _ _ _ Hl) as Hmount.
    destruct Hadded as [Hmaps Hrobots Hlmks _ [ext Hext] _ Hsens].
    cbn in Hmaps, Hrobots, Hlmks, Hext.
    destruct Hl as [Hsen Hvalid Hrob Hmp Hm].
    destruct (Hsens this sen Hsen) as (sen' & Hsen' & _ & Hrb & _ & _ & Htab).
    rewrite bool_decide_eq_true_2 in Htab
      by (apply elem_of_seq; apply lookup_lt_Some in Hsen; simpl; lia).
    rewrite (mounted_on_robots w (world_with_landmark size_lmkAHP w1 mp m start)
               mp sen sen eq_refl eq_refl), Hmount in Htab.
    cbn in Htab. destruct Htab as (op & Htab & Hop).
    exists w', sen', (map_with_landmark size_lmkAHP m start (length (landmarks w))),
      [fresh_landmark size_lmkAHP mp m start].
    split; [exact Hrun|]. split; [|split; [exact H1|split; [exact Hlmks|split]]].
    + constructor.
      * exact Hsen'.
      * rewrite Htab. apply Forall_forall. intros [k p] Hin.
        apply StdMapFacts.elem_of_assign in Hin as [[= -> ->]|Hin].
        -- eexists. exact Hop.
        -- rewrite Forall_forall in Hvalid. destruct (Hvalid _ Hin) as [o Ho].
           exists o. rewrite Hext. apply lookup_app_l_Some, Ho.
      * rewrite Hrb, Hrobots. exact Hrob.
      * exact Hmp.
      * rewrite Hmaps. apply (store_insert_lookup _ _ _ _ Hm).
    + simpl. lia.
    + rewrite H2. simpl. lia.
  - exists w1, sen, m, [].
    split; [apply (discoverNewLmks_skip size_lmkAHP this w1 sen rob mp m Hl1 Hroom)|].
    split; [exact Hl1|]. split; [exact Hcov|].
    split; [cbn; rewrite app_nil_r; reflexivity|].
    split; simpl; lia.
Qed.

(** X12.  Cycles can follow one another without end: a cycle leaves the
    sensor with every link it needs for the next one, so any number of
    cycles of a wired sensor returns.  After [n] cycles the landmarks that
    were there are still there, at most [n] were added behind them, and the
    table of the map has grown by exactly as many entries: no cycle gave a
    landmark the id of another. *)
Theorem cycles_return (this : ptr) (n : nat) (w : World) (sen : SensorAbstract)
    (rob : RobotAbstract) (mp : ptr) (m : MapAbstract) :
  linked w this sen rob mp m →
  pool_covers m →
  ∃ w' sen' m' new,
    cycles size_lmkAHP this n w = Done () w' ∧
    linked w' this sen' rob mp m' ∧
    pool_covers m' ∧
    landmarks w' = landmarks w ++ new ∧
    length new ≤ n ∧
    length (map_landmarks m') = length (map_landmarks m) + length new.
Proof.
  revert w sen m. induction n as [|n IH]; intros w sen m Hl Hcov.
  - exists w, sen, m, []. simpl. rewrite app_nil_r.
    repeat split; try assumption; try lia; apply Hl.
  - destruct (processRaw_keeps_links this w sen rob mp m Hl Hcov)
      as (w1 & sen1 & m1 & new1 & Hrun1 & Hl1 & Hcov1 & Hlm1 & Hlen1 & Htab1).
    destruct (IH w1 sen1 m1 Hl1 Hcov1)
      as (w' & sen' & m' & new & Hrun & Hl' & Hcov' & Hlm & Hlen & Htab).
    exists w', sen', m', (new1 ++ new).
    split; [simpl; unfold bind; rewrite Hrun1; exact Hrun|].
    split; [exact Hl'|]. split; [exact Hcov'|].
    split; [rewrite Hlm, Hlm1, app_assoc; reflexivity|].
    rewrite length_app. split; lia.
Qed.

(** X13.  Once the map has no room for a landmark, cycles change nothing
    but the output: maps, landmarks, sensors and observations stay as they
    are, and each cycle prints the lines of the known observations again. *)
Theorem cycles_on_full_map (this : ptr) (n : nat) (w : World)
    (sen : SensorAbstract) (rob : RobotAbstract) (mp : ptr) (m : MapAbstract) :
  linked w this sen rob mp m →
  unusedStates m size_lmkAHP = false →
  cycles size_lmkAHP this n w
  = Done () (set_cout
               (λ s, s ++ concat (replicate n
                                    (concat (explore_line w <$> observations sen))))
               w).
Proof.
  revert w. induction n as [|n IH]; intros w Hl Hfull.
  - simpl. unfold ret, set_cout. destruct w; simpl. rewrite app_nil_r. reflexivity.
  - pose proof (observeKnownLmks_run this w sen (linked_sensor _ _ _ _ _ _ Hl)
                  (linked_obs _ _ _ _ _ _ Hl)) as Hobs.
    set (w1 := set_cout (λ s, s ++ concat (explore_line w <$> observations sen)) w)
      in Hobs.
    assert (Hl1 : linked w1 this sen rob mp m) by (apply linked_set_cout, Hl).
    simpl. unfold bind at 1. unfold processRaw, bind at 1. rewrite Hobs.
    rewrite (discoverNewLmks_skip size_lmkAHP this w1 sen rob mp m Hl1 Hfull).
    rewrite (IH w1 Hl1 Hfull).
    unfold w1, set_cout. cbn. rewrite <- app_assoc. reflexivity.
Qed.

End Further.

(** ** The sample world, run *)

#[local] Existing Instance Sample.Z_jblas.
#[local] Existing Instance Sample.Z_quat.

(** C1.  Built with [inFilter] cleared for the second robot of a map, whose
    pose sits in cells 7-13, the sensor has a LOCAL pose and its
    [ia_globalPose] is the index array 0-6 of its own local pose, not the
    indices 7-13 of the pose of the robot. *)
Theorem SensorAbstract_rob_local_takes_own_indices :
  ∃ s,
    SensorAbstract_rob Sample.rob1 false Sample.w_two = Done s Sample.w_two ∧
    storage_ (pose s) = LOCAL ∧
    ia_ (rob_pose Sample.rob1) = [7; 8; 9; 10; 11; 12; 13] ∧
    ia_globalPose s = [0; 1; 2; 3; 4; 5; 6] ∧
    ia_globalPose s ≠ ia_ (rob_pose Sample.rob1).
Proof. eexists. repeat split. discriminate. Qed.

Lemma sample_linked :
  linked Sample.w0 0 Sample.sen_local Sample.rob0 0 Sample.map0.
Proof.
  constructor; try reflexivity.
  repeat constructor. eexists. reflexivity.
Qed.

Lemma sample_posed_local :
  posed Sample.w0 0 Sample.sen_local Sample.rob0
    Sample.robotPose Sample.sensorPose.
Proof. constructor; try reflexivity; cbn; lia. Qed.

Lemma sample_posed_remote :
  posed Sample.w0 1 Sample.sen_remote Sample.rob0
    Sample.robotPose Sample.sensorPose.
Proof. constructor; try reflexivity; cbn; lia. Qed.

Lemma sample_table_ok :
  table_ok Sample.w0 (observations Sample.sen_local).
Proof.
  split.
  - simpl. split; [constructor | exact I].
  - intros k p Hin. apply list_elem_of_singleton in Hin. injection Hin as -> ->.
    exists Sample.obs0. split; reflexivity.
Qed.

Lemma processRaw_one_landmark_per_cycle_witness :
  linked Sample.w0 0 Sample.sen_local Sample.rob0 0 Sample.map0 ∧
  ∃ w', processRaw Sample.size_lmk 0 Sample.w0 = Done () w' ∧
        length (landmarks w') ≤ 2.
Proof.
  split; [exact sample_linked|].
  destruct (processRaw_one_landmark_per_cycle Sample.size_lmk 0 Sample.w0
              Sample.sen_local Sample.rob0 0 Sample.map0 sample_linked)
    as (w' & Hrun & Hle & _).
  exists w'. split; [exact Hrun | exact Hle].
Defined.

Lemma discoverNewLmks_registers_landmark_witness :
  linked Sample.w0 0 Sample.sen_local Sample.rob0 0 Sample.map0 ∧
  unusedStates Sample.map0 Sample.size_lmk = true ∧
  ∃ w' lmk,
    discoverNewLmks Sample.size_lmk 0 Sample.w0 = Done () w' ∧
    landmarks w' !! 1 = Some lmk ∧ id_ (lmk_obj lmk) = 2.
Proof.
  split; [exact sample_linked|]. split; [reflexivity|].
  destruct (discoverNewLmks_registers_landmark Sample.size_lmk 0 Sample.w0
              Sample.sen_local Sample.rob0 0 Sample.map0 sample_linked eq_refl)
    as (w' & lmk & m' & sen' & op & Hrun & Hlmk & Hid & _).
  exists w', lmk. split; [exact Hrun|]. split; [exact Hlmk | exact Hid].
Defined.

Lemma processRaw_observes_then_discovers_witness :
  linked Sample.w0 0 Sample.sen_local Sample.rob0 0 Sample.map0 ∧
  ∃ w',
    processRaw Sample.size_lmk 0 Sample.w0 = Done () w' ∧
    cout w' = [Str "exploring obs: "; Num 1; Endl;
               Str "    added lmk: "; Num 2; Endl].
Proof.
  split; [exact sample_linked|].
  destruct (processRaw_observes_then_discovers Sample.size_lmk 0 Sample.w0
              Sample.sen_local Sample.rob0 0 Sample.map0 sample_linked)
    as (w1 & w' & tail & _ & _ & _ & Hrun & Hcout & ->).
  exists w'. split; [exact Hrun | exact Hcout].
Defined.

Lemma globalPose_jacobian_by_storage_witness :
  posed Sample.w0 1 Sample.sen_remote Sample.rob0
    Sample.robotPose Sample.sensorPose ∧
  rectangular (mat_sized 7 14) 7 14 ∧
  ∃ J,
    globalPose 1 [] (mat_sized 7 14) Sample.w0
    = Done (composeFrames Sample.robotPose Sample.sensorPose, J) Sample.w0 ∧
    columns 0 7 J = Sample.diag 1 ∧ columns 7 14 J = Sample.diag 2.
Proof.
  split; [exact sample_posed_remote|].
  split; [exact (rectangular_mat_sized 7 14)|].
  destruct (globalPose_jacobian_by_storage 1 Sample.w0 Sample.sen_remote
              Sample.rob0 Sample.robotPose Sample.sensorPose []
              (mat_sized 7 14) sample_posed_remote (rectangular_mat_sized 7 14))
    as (J & Hrun & _ & Hleft & Hright).
  exists J. split; [exact Hrun|]. split; [exact Hleft | exact Hright].
Defined.

Lemma globalPose_remote_extends_local_witness :
  ∃ senGlobalPos J1 J2,
    globalPose 0 [] (mat_sized 7 7) Sample.w0 = Done (senGlobalPos, J1) Sample.w0 ∧
    globalPose 1 [] (mat_sized 7 14) Sample.w0 = Done (senGlobalPos, J2) Sample.w0 ∧
    columns 0 7 J2 = J1.
Proof.
  destruct (globalPose_remote_extends_local 0 1 Sample.w0 Sample.w0
              Sample.sen_local Sample.sen_remote Sample.rob0 Sample.rob0
              Sample.robotPose Sample.sensorPose [] []
              (mat_sized 7 7) (mat_sized 7 14)
              sample_posed_local sample_posed_remote eq_refl eq_refl
              (rectangular_mat_sized 7 7) (rectangular_mat_sized 7 14))
    as (gp & J1 & J2 & H1 & H2 & _ & _ & Hcols).
  exists gp, J1, J2. split; [exact H1|]. split; [exact H2 | exact Hcols].
Defined.

Lemma globalPose_leaves_state_witness :
  ∃ res,
    globalPose 1 [] (mat_sized 7 14) Sample.w0 = Done res Sample.w0 ∧
    globalPose 1 res.1 res.2 Sample.w0 = Done res Sample.w0.
Proof.
  eexists.
  assert (Hcall : globalPose 1 [] (mat_sized 7 14) Sample.w0
                  = Done _ Sample.w0) by (vm_compute; reflexivity).
  split; [exact Hcall|].
  apply (globalPose_leaves_state 1 Sample.w0 Sample.w0 [] (mat_sized 7 14) _ Hcall).
Defined.

Lemma linkToObservation_keyed_by_id_witness :
  sensors Sample.w0 !! 0 = Some Sample.sen_local ∧
  table_ok Sample.w0 (observations Sample.sen_local) ∧
  obs_store Sample.w0 !! 0 = Some Sample.obs0 ∧
  ∃ table,
    for_each (linkToObservation 0) [0; 0] Sample.w0
    = Done () (set_sensors
                 <[0 := with_observations Sample.sen_local table]> Sample.w0) ∧
    NoDup (StdMap.keys table).
Proof.
  split; [reflexivity|]. split; [exact sample_table_ok|]. split; [reflexivity|].
  destruct (linkToObservation_keyed_by_id 0 Sample.w0 Sample.sen_local 0
              Sample.obs0 [0; 0] eq_refl sample_table_ok eq_refl)
    as [_ (table & Hrun & Hnd & _)].
  { repeat constructor; eexists; reflexivity. }
  exists table. split; [exact Hrun | exact Hnd].
Defined.

Lemma print_sensor_fields_witness :
  robot Sample.sen_remote ≫= (λ rp, robots Sample.w0 !! rp) = Some Sample.rob0 ∧
  ∃ dump,
    print_sensor Sample.w0 [] Sample.sen_remote = Some ([] ++ dump) ∧
    ItIndArray (ia_globalPose Sample.sen_remote) ∈ dump.
Proof.
  split; [reflexivity|].
  destruct (print_sensor_fields Sample.w0 [] Sample.sen_remote Sample.rob0 eq_refl)
    as (dump & Hrun & _ & _ & _ & _ & Hia & _).
  exists dump. split; [exact Hrun|]. apply Hia. reflexivity.
Defined.

(** ** The sample world and the further properties *)

Lemma sample_pool_covers : pool_covers Sample.map0.
Proof. unfold pool_covers. repeat constructor. Qed.

Lemma sample_linked_full :
  linked Sample.w_full 0 Sample.sen_local Sample.rob0 0 Sample.map_full.
Proof.
  constructor; try reflexivity.
  repeat constructor. eexists. reflexivity.
Qed.

Lemma sample_table_ok_obs :
  table_ok Sample.w_obs (observations Sample.sen_local).
Proof.
  split.
  - simpl. split; [constructor | exact I].
  - intros k p Hin. apply list_elem_of_singleton in Hin. injection Hin as -> ->.
    exists Sample.obs0. split; reflexivity.
Qed.

Lemma SensorAbstract_rob_links_no_robot_witness :
  SensorAbstract_rob Sample.rob1 false Sample.w_two
    = Done Sample.sen_fresh Sample.w_two ∧
  sensors Sample.w_fresh !! 0 = Some Sample.sen_fresh ∧
  globalPose 0 [] (mat_sized 7 7) Sample.w_fresh = Raise NullPointer ∧
  processRaw Sample.size_lmk 0 Sample.w_fresh = Raise NullPointer.
Proof.
  split; [reflexivity|]. split; [reflexivity|].
  destruct (SensorAbstract_rob_links_no_robot Sample.size_lmk Sample.rob1 false
              Sample.w_two Sample.w_two Sample.w_fresh Sample.sen_fresh 0
              [] (mat_sized 7 7) [] eq_refl eq_refl)
    as (_ & _ & Hpose & Hcycle & _).
  split; [exact Hpose | exact Hcycle].
Defined.

Lemma linkToRobot_sets_robot_only_witness :
  sensors Sample.w_fresh !! 0 = Some Sample.sen_fresh ∧
  robots Sample.w_fresh !! 1 = Some Sample.rob1 ∧
  ∃ sen',
    linkToRobot 0 (Some 1) Sample.w_fresh
      = Done () (set_sensors <[0 := sen']> Sample.w_fresh) ∧
    robot sen' = Some 1 ∧
    ia_globalPose sen' = ia_globalPose Sample.sen_fresh.
Proof.
  split; [reflexivity|]. split; [reflexivity|].
  destruct (linkToRobot_sets_robot_only 0 Sample.w_fresh Sample.sen_fresh 1
              Sample.rob1 None [] eq_refl eq_refl)
    as (sen' & Hrun & Hrobot & _ & _ & _ & Hia & _).
  exists sen'. split; [exact Hrun|]. split; [exact Hrobot | exact Hia].
Defined.

Lemma processRaw_returns_iff_map_witness :
  sensors Sample.w0 !! 0 = Some Sample.sen_local ∧
  ∃ w', processRaw Sample.size_lmk 0 Sample.w0 = Done () w'.
Proof.
  split; [reflexivity|].
  refine (processRaw_returns_iff_map Sample.size_lmk 0 Sample.w0
            Sample.sen_local eq_refl _).
  repeat constructor. eexists. reflexivity.
Defined.

Lemma linkToObservation_order_free_witness :
  sensors Sample.w_obs !! 0 = Some Sample.sen_local ∧
  (linkToObservation 0 1 ;;; linkToObservation 0 2) Sample.w_obs
  = (linkToObservation 0 2 ;;; linkToObservation 0 1) Sample.w_obs.
Proof.
  split; [reflexivity|].
  destruct (linkToObservation_order_free 0 Sample.w_obs Sample.sen_local 1 2
              (mkObservationAbstract 5 (Some 0) None)
              (mkObservationAbstract 3 (Some 0) None)
              eq_refl eq_refl eq_refl)
    as (_ & Hcomm & _).
  apply Hcomm. discriminate.
Defined.

Lemma observeKnownLmks_after_links_witness :
  sensors Sample.w_obs !! 0 = Some Sample.sen_local ∧
  table_ok Sample.w_obs (observations Sample.sen_local) ∧
  ∃ w' ids,
    (for_each (linkToObservation 0) [1; 2; 1] ;;; observeKnownLmks 0) Sample.w_obs
      = Done () w' ∧
    cout w' = cout Sample.w_obs ++ concat (explore_id <$> ids) ∧
    StdMap.ascending ids.
Proof.
  split; [reflexivity|]. split; [exact sample_table_ok_obs|].
  destruct (observeKnownLmks_after_links 0 Sample.w_obs Sample.sen_local [1; 2; 1]
              eq_refl sample_table_ok_obs)
    as (w' & ids & Hrun & Hcout & Hasc & _).
  { repeat constructor; eexists; reflexivity. }
  exists w', ids. split; [exact Hrun|]. split; [exact Hcout | exact Hasc].
Defined.

Lemma SensorAbstract_rob_inFilter_indices_witness :
  slamMap Sample.rob1 = Some 0 ∧
  find_free 7 (used_states Sample.map_two) 0 = Some 14 ∧
  ∃ s w',
    SensorAbstract_rob Sample.rob1 true Sample.w_two = Done s w' ∧
    ia_ (pose s) = ia_range 14 7 ∧
    ∀ k, k ∈ ia_globalPose s ↔ k ∈ ia_ (rob_pose Sample.rob1) ∨ 14 ≤ k < 14 + 7.
Proof.
  split; [reflexivity|]. split; [reflexivity|].
  destruct (SensorAbstract_rob_inFilter_indices Sample.rob1 Sample.w_two 0
              Sample.map_two 14 eq_refl eq_refl eq_refl)
    as (s & used' & Hrun & _ & Hpose & _ & _ & Hia).
  eexists s, _. split; [exact Hrun|]. split; [exact Hpose | exact Hia].
Defined.



Lemma newLandmark_keeps_ids_apart_witness :
  maps Sample.w0 !! 0 = Some Sample.map0 ∧
  pool_covers Sample.map0 ∧
  find_free Sample.size_lmk (used_states Sample.map0) 0 = Some 21 ∧
  ∃ w' m',
    newLandmark Sample.size_lmk 0 (Some 0) Sample.w0 = Done 1 w' ∧
    maps w' !! 0 = Some m' ∧
    length (map_landmarks m') = 2.
Proof.
  split; [reflexivity|]. split; [exact sample_pool_covers|]. split; [reflexivity|].
  destruct (newLandmark_keeps_ids_apart Sample.size_lmk 0 0 Sample.w0 Sample.map0 21
              eq_refl sample_pool_covers eq_refl)
    as (w' & m' & Hrun & Hm' & _ & Hlen & _).
  exists w', m'. split; [exact Hrun|]. split; [exact Hm' | exact Hlen].
Defined.

Lemma cycles_return_witness :
  linked Sample.w0 0 Sample.sen_local Sample.rob0 0 Sample.map0 ∧
  pool_covers Sample.map0 ∧
  ∃ w' new,
    cycles Sample.size_lmk 0 3 Sample.w0 = Done () w' ∧
    landmarks w' = landmarks Sample.w0 ++ new ∧
    length new ≤ 3.
Proof.
  split; [exact sample_linked|]. split; [exact sample_pool_covers|].
  destruct (cycles_return Sample.size_lmk 0 3 Sample.w0 Sample.sen_local
              Sample.rob0 0 Sample.map0 sample_linked sample_pool_covers)
    as (w' & sen' & m' & new & Hrun & _ & _ & Hlm & Hlen & _).
  exists w', new. split; [exact Hrun|]. split; [exact Hlm | exact Hlen].
Defined.

Lemma cycles_on_full_map_witness :
  linked Sample.w_full 0 Sample.sen_local Sample.rob0 0 Sample.map_full ∧
  unusedStates Sample.map_full Sample.size_lmk = false ∧
  ∃ w',
    cycles Sample.size_lmk 0 2 Sample.w_full = Done () w' ∧
    maps w' = maps Sample.w_full ∧ landmarks w' = landmarks Sample.w_full.
Proof.
  split; [exact sample_linked_full|]. split; [reflexivity|].
  eexists. split.
  - apply (cycles_on_full_map Sample.size_lmk 0 2 Sample.w_full Sample.sen_local
             Sample.rob0 0 Sample.map_full sample_linked_full eq_refl).
  - split; reflexivity.
Defined.
